(** * A proof-of-work ledger in the browser: [blockchain.js]

    This development embeds the ledger of [src/blockchain.js] (classes
    [Block] and [Blockchain], and the helper [sha256]) and proves the
    properties its specification states about it.

    Conventions of the embedding.
    - A JavaScript string is the sequence of its UTF-8 bytes, a Rocq
      [string].  On well-formed strings the operations the ledger uses
      ([===], [startsWith], template concatenation, [TextEncoder.encode],
      the escaping of [JSON.stringify]) act on that sequence byte by byte.
    - A JavaScript number is an IEEE-754 binary64 value, Rocq's primitive
      [float].  The timestamp of a block (an integer number of
      milliseconds) is a [Z] and the nonce (0, 1, 2, ...) an [N] whose
      increment saturates at 2^53 as the double's does.
    - The fields of a transaction hold primitive values: [undefined],
      [null], a boolean, a number or a string.
    - [Date.now()] is an input of the methods that call it.
    - A method runs from its first statement to its last without another
      callback of the page running in between. *)

From Stdlib Require Import ZArith NArith List String Ascii Bool Lia Floats.
From Stdlib Require Import DecimalString DecimalPos DecimalZ.
Import ListNotations.
Local Open Scope list_scope.
Local Open Scope string_scope.

(** * Part I: the program and the vocabulary of its properties *)

(** ** Strings *)

Module JsString.

(** [String.prototype.repeat] on a one-character pattern. *)
Fixpoint repeat (c : ascii) (count : nat) : string :=
  match count with
  | O => EmptyString
  | S n => String c (repeat c n)
  end.

(** [s.startsWith(target)]. *)
Fixpoint startsWith (target s : string) : bool :=
  match target, s with
  | EmptyString, _ => true
  | String a target', String b s' => Ascii.eqb a b && startsWith target' s'
  | String _ _, EmptyString => false
  end.

(** [parts.join(sep)]. *)
Fixpoint join (sep : string) (parts : list string) : string :=
  match parts with
  | [] => EmptyString
  | [p] => p
  | p :: rest => p ++ sep ++ join sep rest
  end.

End JsString.

(** ** SHA-256 (FIPS 180-4), the digest behind [crypto.subtle.digest] *)

Module Sha256.

Local Open Scope N_scope.

Definition mask32 : N := 0xFFFFFFFF.
Definition add32 (a b : N) : N := N.land (a + b) mask32.
Definition rotr (n x : N) : N :=
  N.land (N.lor (N.shiftr x n) (N.shiftl x (32 - n))) mask32.
Definition not32 (x : N) : N := N.lxor x mask32.

Definition Ch (x y z : N) : N := N.lxor (N.land x y) (N.land (not32 x) z).
Definition Maj (x y z : N) : N :=
  N.lxor (N.lxor (N.land x y) (N.land x z)) (N.land y z).
Definition Sigma0 (x : N) : N := N.lxor (N.lxor (rotr 2 x) (rotr 13 x)) (rotr 22 x).
Definition Sigma1 (x : N) : N := N.lxor (N.lxor (rotr 6 x) (rotr 11 x)) (rotr 25 x).
Definition sigma0 (x : N) : N := N.lxor (N.lxor (rotr 7 x) (rotr 18 x)) (N.shiftr x 3).
Definition sigma1 (x : N) : N := N.lxor (N.lxor (rotr 17 x) (rotr 19 x)) (N.shiftr x 10).

(** The largest [r] below [2^bits] with [r^e <= x]. *)
Fixpoint root (e : N) (bits : nat) (x r : N) : N :=
  match bits with
  | O => r
  | S bits' =>
      let r' := r + 2 ^ N.of_nat bits' in
      root e bits' x (if r' ^ e <=? x then r' else r)
  end.

Definition isPrime (p : N) : bool :=
  (1 <? p) && forallb (fun d => negb (p mod N.of_nat d =? 0)) (seq 2 (N.to_nat p - 2)).

Fixpoint primesFrom (fuel count : nat) (p : N) : list N :=
  match fuel, count with
  | S fuel', S count' =>
      if isPrime p then p :: primesFrom fuel' count' (p + 1)
      else primesFrom fuel' count (p + 1)
  | _, _ => []
  end.

(** The first [count] primes. *)
Definition primes (count : nat) : list N := primesFrom 400 count 2.

(** The first 32 bits of the fractional part of the [e]-th root of [p]. *)
Definition fractionBits (e p : N) : N :=
  N.land (root e 40 (p * 2 ^ (32 * e)) 0) mask32.

(** The round constants: from the cube roots of the first 64 primes. *)
Definition K : list N := Eval vm_compute in map (fractionBits 3) (primes 64).

Record state := mkState { sa : N; sb : N; sc : N; sd : N; se : N; sf : N; sg : N; sh : N }.

(** The initial hash value: from the square roots of the first 8 primes. *)
Definition H0 : state :=
  Eval vm_compute in
    match map (fractionBits 2) (primes 8) with
    | [a; b; c; d; e; f; g; h] => mkState a b c d e f g h
    | _ => mkState 0 0 0 0 0 0 0 0
    end.

(** The message schedule; [recent] holds W[t-1], W[t-2], ..., newest first. *)
Fixpoint schedule (n : nat) (recent : list N) : list N :=
  match n with
  | O => rev recent
  | S n' =>
      let w := add32 (add32 (sigma1 (nth 1 recent 0)) (nth 6 recent 0))
                     (add32 (sigma0 (nth 14 recent 0)) (nth 15 recent 0)) in
      schedule n' (w :: recent)
  end.

Definition round (s : state) (kw : N * N) : state :=
  let (k, w) := kw in
  let t1 := add32 (add32 (add32 (sh s) (Sigma1 (se s))) (add32 (Ch (se s) (sf s) (sg s)) k)) w in
  let t2 := add32 (Sigma0 (sa s)) (Maj (sa s) (sb s) (sc s)) in
  mkState (add32 t1 t2) (sa s) (sb s) (sc s) (add32 (sd s) t1) (se s) (sf s) (sg s).

Definition compress (s : state) (block : list N) : state :=
  let s' := fold_left round (combine K (schedule 48 (rev block))) s in
  mkState (add32 (sa s) (sa s')) (add32 (sb s) (sb s')) (add32 (sc s) (sc s'))
          (add32 (sd s) (sd s')) (add32 (se s) (se s')) (add32 (sf s) (sf s'))
          (add32 (sg s) (sg s')) (add32 (sh s) (sh s')).

(** The [n] low bytes of [x], most significant first. *)
Fixpoint be_bytes (n : nat) (x : N) : list N :=
  match n with
  | O => []
  | S n' => N.land (N.shiftr x (8 * N.of_nat n')) 0xFF :: be_bytes n' x
  end.

Definition pad (msg : list N) : list N :=
  let len := N.of_nat (List.length msg) in
  let zeros := N.to_nat ((119 - len mod 64) mod 64) in
  msg ++ 0x80 :: List.repeat 0 zeros ++ be_bytes 8 (8 * len).

Fixpoint words (fuel : nat) (bs : list N) : list N :=
  match fuel, bs with
  | S f, b0 :: b1 :: b2 :: b3 :: rest =>
      (N.shiftl b0 24 + N.shiftl b1 16 + N.shiftl b2 8 + b3) :: words f rest
  | _, _ => []
  end.

Fixpoint blocks (fuel : nat) (ws : list N) (s : state) : state :=
  match fuel, ws with
  | S f, _ :: _ => blocks f (skipn 16 ws) (compress s (firstn 16 ws))
  | _, _ => s
  end.

(** The 32 bytes of the digest. *)
Definition digest (msg : list N) : list N :=
  let bs := pad msg in
  let ws := words (List.length bs) bs in
  let s := blocks (List.length ws) ws H0 in
  be_bytes 4 (sa s) ++ be_bytes 4 (sb s) ++ be_bytes 4 (sc s) ++ be_bytes 4 (sd s) ++
  be_bytes 4 (se s) ++ be_bytes 4 (sf s) ++ be_bytes 4 (sg s) ++ be_bytes 4 (sh s).

End Sha256.

(** [new TextEncoder().encode(message)]: the bytes of the string. *)
Fixpoint encode (message : string) : list N :=
  match message with
  | EmptyString => []
  | String c rest => N_of_ascii c :: encode rest
  end.

Definition hexDigit (d : N) : ascii :=
  ascii_of_N (if (d <? 10)%N then 48 + d else 87 + d).

(** [b.toString(16).padStart(2, '0')] for a byte [b]. *)
Definition hexByte (b : N) : string :=
  String (hexDigit (b / 16)) (String (hexDigit (b mod 16)) EmptyString).

(** [sha256(message)]: the lower-case hexadecimal digest of the message. *)
Definition sha256 (message : string) : string :=
  String.concat EmptyString (map hexByte (Sha256.digest (encode message))).

(** ** Numbers *)

Module JsNumber.

Local Open Scope Z_scope.

(** The decimal digits of an integer, with a leading minus sign below zero. *)
Definition decimal (n : Z) : string := NilZero.string_of_int (Z.to_int n).

(** [nonce++] on a number that holds a natural number: exact below 2^53,
    where the doubles are one apart; 2^53 + 1 rounds back to 2^53. *)
Definition increment (n : N) : N :=
  if (n <? 2 ^ 53)%N then (n + 1)%N else n.

(** A finite double is m * 2^e.  Around [x], the neighbouring doubles and the
    midpoints between them are whole multiples of 2^(e-2): [grid x] is that
    exponent and [units E y] is [y] counted in multiples of 2^E. *)
Definition grid (x : float) : Z :=
  match Prim2SF x with
  | S754_finite _ _ e => e - 2
  | _ => 0
  end.

Definition units (E : Z) (y : float) : Z :=
  match Prim2SF y with
  | S754_finite _ m e => Z.shiftl (Z.pos m) (e - E)
  | _ => 0
  end.

Definition mantissa_even (x : float) : bool :=
  match Prim2SF x with
  | S754_finite _ m _ => Z.even (Z.pos m)
  | _ => true
  end.

(** The reals that round to [x] lie between these two bounds (in units of
    2^(grid x)); the bounds themselves round to [x] iff its mantissa is even. *)
Definition lo_bound (x : float) : Z :=
  let E := grid x in (units E (next_down x) + units E x) / 2.

Definition hi_bound (x : float) : Z :=
  let E := grid x in
  if is_infinity (next_up x) then units E x + (units E x - units E (next_down x)) / 2
  else (units E x + units E (next_up x)) / 2.

(** [s * 10^p] against [b * 2^E], both sides cleared of denominators. *)
Definition lhs (s p E : Z) : Z := s * 10 ^ Z.max p 0 * 2 ^ Z.max (- E) 0.
Definition rhs (b p E : Z) : Z := b * 10 ^ Z.max (- p) 0 * 2 ^ Z.max E 0.

(** floor (x / 10^p) *)
Definition q10 (x : float) (p : Z) : Z :=
  let E := grid x in rhs (units E x) p E / lhs 1 p E.

Fixpoint adjust_log10 (fuel : nat) (x : float) (t : Z) : Z :=
  match fuel with
  | O => t
  | S f =>
      let q := q10 x t in
      if q =? 0 then adjust_log10 f x (t - 1)
      else if 10 <=? q then adjust_log10 f x (t + 1)
      else t
  end.

Definition floor_log10 (x : float) : Z :=
  let E := grid x in
  adjust_log10 4 x (((Z.log2 (units E x) + E) * 30103) / 100000).

Definition in_interval (x : float) (s p : Z) : bool :=
  let E := grid x in
  let incl := mantissa_even x in
  (match lhs s p E ?= rhs (lo_bound x) p E with Gt => true | Eq => incl | Lt => false end) &&
  (match lhs s p E ?= rhs (hi_bound x) p E with Lt => true | Eq => incl | Gt => false end).

Definition dist (x : float) (s p : Z) : Z :=
  let E := grid x in Z.abs (lhs s p E - rhs (units E x) p E).

(** The digits of Number::toString: [(s, n)] where [s] has [k] digits, [k]
    least, and [s * 10^(n-k)] reads back as [x]; among several [s] the one
    nearest to [x], the even one on a tie. *)
Fixpoint shortest (fuel : nat) (x : float) (t k : Z) : Z * Z :=
  let p := t - k + 1 in
  let s1 := q10 x p in
  let s2 := s1 + 1 in
  match fuel with
  | O => (s1, t + 1)
  | S f =>
      let ok1 := in_interval x s1 p in
      let ok2 := in_interval x s2 p in
      let pick2 := if s2 =? 10 ^ k then (10 ^ (k - 1), t + 2) else (s2, t + 1) in
      if ok1 && ok2 then
        match dist x s1 p ?= dist x s2 p with
        | Lt => (s1, t + 1)
        | Gt => pick2
        | Eq => if Z.even s1 then (s1, t + 1) else pick2
        end
      else if ok1 then (s1, t + 1)
      else if ok2 then pick2
      else shortest f x t (k + 1)
  end.

Definition take (n : nat) (s : string) : string := substring 0 n s.
Definition drop (n : nat) (s : string) : string := substring n (String.length s - n) s.

(** The four layouts of Number::toString for the digits and the exponent [n]. *)
Definition format (digits : string) (n : Z) : string :=
  let k := Z.of_nat (String.length digits) in
  if (k <=? n) && (n <=? 21) then digits ++ JsString.repeat "0" (Z.to_nat (n - k))
  else if (0 <? n) && (n <=? 21) then
    take (Z.to_nat n) digits ++ "." ++ drop (Z.to_nat n) digits
  else if (-6 <? n) && (n <=? 0) then "0." ++ JsString.repeat "0" (Z.to_nat (- n)) ++ digits
  else
    let e := n - 1 in
    let mant := if k =? 1 then digits else take 1 digits ++ "." ++ drop 1 digits in
    mant ++ "e" ++ (if e <? 0 then "-" else "+") ++ decimal (Z.abs e).

Definition toStringPos (x : float) : string :=
  let (s, n) := shortest 17 x (floor_log10 x) 1 in
  format (decimal s) n.

(** Number::toString(x) in radix 10. *)
Definition toString (x : float) : string :=
  if is_nan x then "NaN"
  else if is_zero x then "0"
  else if is_infinity x then (if (x <? 0)%float then "-Infinity" else "Infinity")
  else if (x <? 0)%float then "-" ++ toStringPos (- x)%float
  else toStringPos x.

(** The exact value of a finite double, counted in multiples of 2^-1074
    (the spacing of the smallest doubles); [None] for NaN and the infinities. *)
Definition exactValue (x : float) : option Z :=
  match Prim2SF x with
  | S754_zero _ => Some 0
  | S754_finite s m e => Some (cond_Zopp s (Z.shiftl (Z.pos m) (e + 1074)))
  | _ => None
  end.

End JsNumber.

(** ** Values *)

(** The values a field of a transaction may hold. *)
Inductive jsval : Type :=
| VUndefined
| VNull
| VBool (b : bool)
| VNumber (x : float)
| VString (s : string).

(** ToBoolean: what [!v] negates. *)
Definition truthy (v : jsval) : bool :=
  match v with
  | VUndefined | VNull => false
  | VBool b => b
  | VNumber x => negb (is_zero x || is_nan x)
  | VString s => negb (s =? "")
  end.

(** [typeof v !== 'number' || isNaN(v)]: the right operand is evaluated on
    numbers only, where [isNaN] is the test of the double. *)
Definition notANumber (v : jsval) : bool :=
  match v with
  | VNumber x => is_nan x
  | _ => true
  end.

(** [a === b] *)
Definition strictEq (a b : jsval) : bool :=
  match a, b with
  | VUndefined, VUndefined => true
  | VNull, VNull => true
  | VBool x, VBool y => Bool.eqb x y
  | VNumber x, VNumber y => (x =? y)%float
  | VString x, VString y => (x =? y)%string
  | _, _ => false
  end.

(** SameValueZero, the equality of [Set.prototype.add]. *)
Definition sameValueZero (a b : jsval) : bool :=
  match a, b with
  | VNumber x, VNumber y => (x =? y)%float || (is_nan x && is_nan y)
  | _, _ => strictEq a b
  end.

(** ** JSON *)

Module JSON.

Definition dquote : ascii := "034"%char.
Definition backslash : ascii := "092"%char.

(** One character inside a JSON string literal (QuoteJSONString). *)
Definition escapeChar (c : ascii) : string :=
  let n := N_of_ascii c in
  if (n =? 8)%N then String backslash "b"
  else if (n =? 9)%N then String backslash "t"
  else if (n =? 10)%N then String backslash "n"
  else if (n =? 12)%N then String backslash "f"
  else if (n =? 13)%N then String backslash "r"
  else if (n =? 34)%N then String backslash (String dquote EmptyString)
  else if (n =? 92)%N then String backslash (String backslash EmptyString)
  else if (n <? 32)%N then String backslash ("u00" ++ hexByte n)
  else String c EmptyString.

Fixpoint escape (s : string) : string :=
  match s with
  | EmptyString => EmptyString
  | String c rest => escapeChar c ++ escape rest
  end.

Definition quote (s : string) : string :=
  String dquote (escape s ++ String dquote EmptyString).

(** SerializeJSONProperty on a value; [None] where the property is left out. *)
Definition value (v : jsval) : option string :=
  match v with
  | VUndefined => None
  | VNull => Some "null"
  | VBool true => Some "true"
  | VBool false => Some "false"
  | VNumber x => Some (if is_finite x then JsNumber.toString x else "null")
  | VString s => Some (quote s)
  end.

Definition property (key : string) (v : jsval) : list string :=
  match value v with
  | None => []
  | Some text => [quote key ++ ":" ++ text]
  end.

(** The value [JSON.parse] reads back from the text of [v]: NaN and the
    infinities were written as [null], and -0 as [0]. *)
Definition reread (v : jsval) : jsval :=
  match v with
  | VNumber x => if is_finite x then (if is_zero x then VNumber 0 else VNumber x) else VNull
  | _ => v
  end.

End JSON.

(** ** The data of the ledger *)

(** A transaction object [{from, to, amount}]. *)
Record Transaction : Type := mkTransaction {
  from : jsval;
  to : jsval;
  amount : jsval
}.

(** [class Block] *)
Record Block : Type := mkBlock {
  timestamp : Z;
  transactions : list Transaction;
  previousHash : string;
  nonce : N;
  hash : string
}.

(** [new Block(timestamp, transactions, previousHash)] *)
Definition newBlock (timestamp : Z) (transactions : list Transaction) (previousHash : string) : Block :=
  {| timestamp := timestamp;
     transactions := transactions;
     previousHash := previousHash;
     nonce := 0;
     hash := "" |}.

Definition setNonce (n : N) (b : Block) : Block :=
  {| timestamp := timestamp b; transactions := transactions b;
     previousHash := previousHash b; nonce := n; hash := hash b |}.

Definition setHash (h : string) (b : Block) : Block :=
  {| timestamp := timestamp b; transactions := transactions b;
     previousHash := previousHash b; nonce := nonce b; hash := h |}.

(** [JSON.stringify(tx)] for a transaction object. *)
Definition stringifyTransaction (tx : Transaction) : string :=
  "{" ++ JsString.join ","
           (JSON.property "from" (from tx) ++ JSON.property "to" (to tx) ++
            JSON.property "amount" (amount tx)) ++ "}".

(** [JSON.stringify(transactions)] *)
Definition stringifyTransactions (txs : list Transaction) : string :=
  "[" ++ JsString.join "," (map stringifyTransaction txs) ++ "]".

(** [Block.prototype.toHashString] *)
Definition toHashString (b : Block) : string :=
  previousHash b ++ "|" ++ JsNumber.decimal (timestamp b) ++ "|" ++
  stringifyTransactions (transactions b) ++ "|" ++ JsNumber.decimal (Z.of_N (nonce b)).

(** [class Blockchain] *)
Record Blockchain : Type := mkBlockchain {
  chain : list Block;
  pendingTransactions : list Transaction;
  difficulty : N;
  miningReward : float
}.

Definition setChain (c : list Block) (self : Blockchain) : Blockchain :=
  {| chain := c; pendingTransactions := pendingTransactions self;
     difficulty := difficulty self; miningReward := miningReward self |}.

Definition setPendingTransactions (p : list Transaction) (self : Blockchain) : Blockchain :=
  {| chain := chain self; pendingTransactions := p;
     difficulty := difficulty self; miningReward := miningReward self |}.

Definition setDifficulty (d : N) (self : Blockchain) : Blockchain :=
  {| chain := chain self; pendingTransactions := pendingTransactions self;
     difficulty := d; miningReward := miningReward self |}.

(** ** The store *)

(** What [JSON.parse] reads from the text kept under the key
    ['vnc_blockchain']: an object with the properties [chain] and [pending].
    The text itself is [JSON.stringify({chain, pending})]; the embedding
    keeps the value that text denotes. *)
Record Persisted : Type := mkPersisted {
  persistedChain : list Block;
  persistedPending : list Transaction
}.

(** [localStorage]: the item under the ledger's key, and whether [setItem]
    throws (the quota is exceeded or the storage is disabled). *)
Record Storage : Type := mkStorage {
  vnc_blockchain : option Persisted;
  setItemThrows : bool
}.

Definition rereadTransaction (tx : Transaction) : Transaction :=
  {| from := JSON.reread (from tx); to := JSON.reread (to tx); amount := JSON.reread (amount tx) |}.

Definition rereadBlock (b : Block) : Block :=
  {| timestamp := timestamp b;
     transactions := map rereadTransaction (transactions b);
     previousHash := previousHash b;
     nonce := nonce b;
     hash := hash b |}.

(** [JSON.parse(JSON.stringify({chain: c, pending: p}))] *)
Definition stringifyParse (c : list Block) (p : list Transaction) : Persisted :=
  {| persistedChain := map rereadBlock c; persistedPending := map rereadTransaction p |}.

(** ** Methods: a state monad over the ledger object and the store *)

Record World : Type := mkWorld {
  this : Blockchain;
  localStorage : Storage
}.

(** How a call ends: it returns, it throws, or (an [async] method) its
    promise is still pending when the fuel of the search runs out. *)
Inductive outcome (A : Type) : Type :=
| Returned (a : A) (w : World)
| Threw (message : string) (w : World)
| Pending.

Arguments Returned {A} a w.

Arguments Threw {A} message w.

Arguments Pending {A}.

Definition M (A : Type) : Type := World -> outcome A.

Definition ret {A : Type} (a : A) : M A := fun w => Returned a w.

Definition bind {A B : Type} (m : M A) (k : A -> M B) : M B :=
  fun w =>
    match m w with
    | Returned a w' => k a w'
    | Threw e w' => Threw e w'
    | Pending => Pending
    end.

Definition throw {A : Type} (message : string) : M A := fun w => Threw message w.

Definition getThis : M Blockchain := fun w => Returned (this w) w.

Definition modifyThis (f : Blockchain -> Blockchain) : M unit :=
  fun w => Returned tt {| this := f (this w); localStorage := localStorage w |}.

Definition getStorage : M Storage := fun w => Returned (localStorage w) w.

Definition putStorage (s : Storage) : M unit :=
  fun w => Returned tt {| this := this w; localStorage := s |}.

Declare Scope method_scope.

Delimit Scope method_scope with method.

Notation "x <- m ;; k" := (bind m (fun x => k))
  (at level 61, m at next level, right associativity) : method_scope.

Notation "m ;; k" := (bind m (fun _ => k))
  (at level 61, right associativity) : method_scope.

Local Open Scope method_scope.

(** [save()]: a failing [setItem] is caught and only warned about. *)
Definition save : M unit :=
  self <- getThis ;;
  store <- getStorage ;;
  if setItemThrows store then ret tt
  else putStorage {| vnc_blockchain := Some (stringifyParse (chain self) (pendingTransactions self));
                     setItemThrows := false |}.

(** [load()] *)
Definition load : M unit :=
  store <- getStorage ;;
  match vnc_blockchain store with
  | None => ret tt
  | Some parsed =>
      modifyThis (setChain
        (map (fun b => setHash (hash b) (setNonce (nonce b)
                         (newBlock (timestamp b) (transactions b) (previousHash b))))
             (persistedChain parsed))) ;;
      modifyThis (setPendingTransactions (persistedPending parsed))
  end.

(** [createGenesisBlock()] *)
Definition createGenesisBlock (now : Z) : M unit :=
  let genesis := newBlock now [ {| from := VString "genesis"; to := VString "network";
                                   amount := VNumber 0 |} ] "0" in
  let genesis := setHash "0" genesis in
  modifyThis (fun self => setChain (chain self ++ [genesis]) self) ;;
  save.

(** [new Blockchain()], run against the store it finds. *)
Definition newBlockchain (now : Z) (store : Storage) : outcome unit :=
  (load ;;
   self <- getThis ;;
   if (List.length (chain self) =? 0)%nat then createGenesisBlock now else ret tt)
  {| this := {| chain := []; pendingTransactions := []; difficulty := 3; miningReward := 1 |};
     localStorage := store |}.

(** [latestBlock()]: [undefined] on an empty chain. *)
Definition latestBlock (self : Blockchain) : option Block :=
  nth_error (chain self) (List.length (chain self) - 1).

(** The mining loop: one digest per turn. *)
Fixpoint mineLoop (fuel : nat) (target : string) (block : Block) : option Block :=
  match fuel with
  | O => None
  | S fuel' =>
      let hash := sha256 (toHashString block) in
      if JsString.startsWith target hash then Some (setHash hash block)
      else mineLoop fuel' target (setNonce (JsNumber.increment (nonce block)) block)
  end.

(** [minePendingTransactions(minerAddress)] *)
Definition minePendingTransactions (fuel : nat) (now : Z) (minerAddress : string) : M Block :=
  self <- getThis ;;
  match latestBlock self with
  | None => throw "TypeError"
  | Some tip =>
      let block := newBlock now (pendingTransactions self) (hash tip) in
      let block := setNonce 0 block in
      let target := JsString.repeat "0" (N.to_nat (difficulty self)) in
      match mineLoop fuel target block with
      | None => fun _ => Pending
      | Some block =>
          modifyThis (fun self => setChain (chain self ++ [block]) self) ;;
          modifyThis (setPendingTransactions
            [ {| from := VString "network"; to := VString minerAddress;
                 amount := VNumber (miningReward self) |} ]) ;;
          save ;;
          ret block
      end
  end.

(** [createTransaction(tx)] *)
Definition createTransaction (tx : Transaction) : M unit :=
  if negb (truthy (from tx)) || negb (truthy (to tx)) || notANumber (amount tx)
  then throw "Invalid transaction"
  else
    modifyThis (fun self => setPendingTransactions (pendingTransactions self ++ [tx]) self) ;;
    save.

(** ToNumber, on the values other than strings (a string would be read as
    a numeric literal). *)
Definition toNumber (v : jsval) : option float :=
  match v with
  | VUndefined => Some nan
  | VNull => Some 0%float
  | VBool true => Some 1%float
  | VBool false => Some 0%float
  | VNumber x => Some x
  | VString _ => None
  end.

(** [balance -= v] and [balance += v] on a numeric balance.  With a string
    [v], [+=] concatenates and [-=] parses the string: the balance stops
    being followed ([None]). *)
Definition subAssign (balance : option float) (v : jsval) : option float :=
  match balance, toNumber v with
  | Some b, Some x => Some (b - x)%float
  | _, _ => None
  end.

Definition addAssign (balance : option float) (v : jsval) : option float :=
  match balance, toNumber v with
  | Some b, Some x => Some (b + x)%float
  | _, _ => None
  end.

(** The body of both loops of [getBalanceOfAddress]. *)
Definition applyTransaction (address : jsval) (balance : option float) (tx : Transaction)
  : option float :=
  let balance := if strictEq (from tx) address then subAssign balance (amount tx) else balance in
  if strictEq (to tx) address then addAssign balance (amount tx) else balance.

(** [getBalanceOfAddress(address)]: it reads the ledger and writes nothing. *)
Definition getBalanceOfAddress (address : jsval) (self : Blockchain) : option float :=
  let balance := Some 0%float in
  let balance :=
    fold_left (fun balance block => fold_left (applyTransaction address) (transactions block) balance)
              (chain self) balance in
  fold_left (applyTransaction address) (pendingTransactions self) balance.

(** The loop of [isChainValid()], entered at index [i] with [remaining]
    indices below [this.chain.length]. *)
Fixpoint isChainValidLoop (self : Blockchain) (i remaining : nat) : bool :=
  match remaining with
  | O => true
  | S remaining' =>
      match nth_error (chain self) i, nth_error (chain self) (i - 1) with
      | Some current, Some previous =>
          let currentHash := sha256 (toHashString current) in
          if negb (hash current =? currentHash) then false
          else if negb (previousHash current =? hash previous) then false
          else if negb (JsString.startsWith (JsString.repeat "0" (N.to_nat (difficulty self)))
                                            (hash current)) then false
          else isChainValidLoop self (S i) remaining'
      | _, _ => false
      end
  end.

(** [isChainValid()] *)
Definition isChainValid : M bool :=
  self <- getThis ;;
  ret (isChainValidLoop self 1 (List.length (chain self) - 1)).

(** [reset()] *)
Definition reset (now : Z) : M unit :=
  store <- getStorage ;;
  putStorage {| vnc_blockchain := None; setItemThrows := setItemThrows store |} ;;
  modifyThis (setChain []) ;;
  modifyThis (setPendingTransactions []) ;;
  createGenesisBlock now.

(** The value a [Set] keeps for [a]: -0 is kept as +0. *)
Definition setKey (a : jsval) : jsval :=
  match a with
  | VNumber x => if is_zero x then VNumber 0 else a
  | _ => a
  end.

(** [addresses.add(a)] on the [Set] of [renderChain], kept in insertion order. *)
Definition addAddress (addresses : list jsval) (a : jsval) : list jsval :=
  if existsb (sameValueZero a) addresses then addresses else addresses ++ [setKey a].

Definition addParties (addresses : list jsval) (t : Transaction) : list jsval :=
  addAddress (addAddress addresses (from t)) (to t).

(** The addresses [renderChain] lists: every [from] and [to] of the chain,
    then of the pending queue. *)
Definition addresses (self : Blockchain) : list jsval :=
  let set := fold_left (fun set b => fold_left addParties (transactions b) set) (chain self) [] in
  fold_left addParties (pendingTransactions self) set.

(** The sum of [getBalanceOfAddress(a)] over the listed addresses, added up
    from 0 in the order of the list. *)
Definition sumOfBalances (self : Blockchain) : option float :=
  fold_left (fun sum a => match sum, getBalanceOfAddress a self with
                          | Some s, Some b => Some (s + b)%float
                          | _, _ => None
                          end)
            (addresses self) (Some 0%float).

(** ** Ledgers and stores used in the examples *)

Definition emptyStorage : Storage := {| vnc_blockchain := None; setItemThrows := false |}.

Definition genesisTransaction : Transaction :=
  {| from := VString "genesis"; to := VString "network"; amount := VNumber 0 |}.

Definition genesisBlock (now : Z) : Block :=
  {| timestamp := now; transactions := [genesisTransaction];
     previousHash := "0"; nonce := 0; hash := "0" |}.

(** The page opened for the first time, at 1700000000000 ms. *)
Definition freshLedger : Blockchain :=
  {| chain := [genesisBlock 1700000000000]; pendingTransactions := [];
     difficulty := 3; miningReward := 1 |}.

Definition freshWorld : World :=
  {| this := freshLedger;
     localStorage := {| vnc_blockchain := Some (stringifyParse [genesisBlock 1700000000000] []);
                        setItemThrows := false |} |}.

(** [chainApp.difficulty = d], as the mining button does before it mines. *)
Definition withDifficulty (d : N) (w : World) : World :=
  {| this := setDifficulty d (this w); localStorage := localStorage w |}.

(** The reward transaction of a mined block. *)
Definition rewardTransaction (minerAddress : string) (reward : float) : Transaction :=
  {| from := VString "network"; to := VString minerAddress; amount := VNumber reward |}.

(** ** Vocabulary: which transactions are accepted *)

(** What the guard of [createTransaction] lets through: [from] and [to] are
    truthy (for a string: not empty) and [amount] is a number other than
    NaN.  Infinity and -Infinity are such numbers. *)
Definition accepted (tx : Transaction) : bool :=
  truthy (from tx) && truthy (to tx) &&
  match amount tx with
  | VNumber x => negb (is_nan x)
  | _ => false
  end.

(** The specification's wording: [from] and [to] non-empty and [amount] a
    finite number. *)
Definition finiteNumber (v : jsval) : bool :=
  match v with
  | VNumber x => is_finite x
  | _ => false
  end.

Definition validBySpec (tx : Transaction) : bool :=
  truthy (from tx) && truthy (to tx) && finiteNumber (amount tx).

(** ** Vocabulary: what survives the store *)

(** A value that [JSON.stringify] and [JSON.parse] hand back unchanged:
    anything but NaN, the infinities and -0. *)
Definition survivesJSON (v : jsval) : Prop := JSON.reread v = v.

Definition transactionSurvivesJSON (tx : Transaction) : Prop :=
  survivesJSON (from tx) /\ survivesJSON (to tx) /\ survivesJSON (amount tx).

Definition ledgerSurvivesJSON (self : Blockchain) : Prop :=
  Forall (fun b => Forall transactionSurvivesJSON (transactions b)) (chain self) /\
  Forall transactionSurvivesJSON (pendingTransactions self).

Definition save_then_load_witness_world : World :=
  {| this := {| chain := [genesisBlock 1700000000000];
                pendingTransactions :=
                  [ {| from := VString "a"; to := VString "b"; amount := VNumber 10 |} ];
                difficulty := 5; miningReward := 2 |};
     localStorage := emptyStorage |}.

(** ** Vocabulary: the candidate block and its sealing *)

(** The block a call of [minePendingTransactions] works on, at nonce [n]. *)
Definition candidate (now : Z) (self : Blockchain) (tip : Block) (n : N) : Block :=
  {| timestamp := now; transactions := pendingTransactions self;
     previousHash := hash tip; nonce := n; hash := "" |}.

(** ['0'.repeat(this.difficulty)] *)
Definition target (self : Blockchain) : string :=
  JsString.repeat "0" (N.to_nat (difficulty self)).

(** The digest of the block's fingerprint starts with the target. *)
Definition seals (target : string) (b : Block) : bool :=
  JsString.startsWith target (sha256 (toHashString b)).

Definition sealed (b : Block) : Block := setHash (sha256 (toHashString b)) b.

(** What a call of [minePendingTransactions] does once the loop has ended. *)
Definition afterMining (minerAddress : string) (block : Block) (w : World) : World :=
  {| this := {| chain := chain (this w) ++ [block];
                pendingTransactions := [rewardTransaction minerAddress (miningReward (this w))];
                difficulty := difficulty (this w);
                miningReward := miningReward (this w) |};
     localStorage :=
       if setItemThrows (localStorage w) then localStorage w
       else {| vnc_blockchain :=
                 Some (stringifyParse (chain (this w) ++ [block])
                         [rewardTransaction minerAddress (miningReward (this w))]);
               setItemThrows := false |} |}.

(** The first block mined on the fresh ledger at difficulty 1, for the miner
    "alice", at 1700000001000 ms: the search ends at nonce 13. *)
Definition firstBlock : Block :=
  {| timestamp := 1700000001000; transactions := []; previousHash := "0"; nonce := 13;
     hash := "078b4145529d55216152288edb0c90fe09d0e09f9c3675b360e413c25acdf05b" |}.

Definition firstMinedWorld : World :=
  afterMining "alice" firstBlock (withDifficulty 1 freshWorld).

(** ** Vocabulary: the checks on a link of the chain *)

(** The three checks [isChainValid] makes on a block and its predecessor. *)
Definition linkChecks (self : Blockchain) (current previous : Block) : Prop :=
  hash current = sha256 (toHashString current) /\
  previousHash current = hash previous /\
  JsString.startsWith (JsString.repeat "0" (N.to_nat (difficulty self))) (hash current) = true.

(** ** Vocabulary: exact arithmetic on balances *)

(** Every transaction of the ledger, in the order [getBalanceOfAddress] and
    [renderChain] visit them: block by block, then the pending queue. *)
Definition allTransactions (self : Blockchain) : list Transaction :=
  (flat_map transactions (chain self) ++ pendingTransactions self)%list.

(** An addition or subtraction of doubles that is exact: both operands and
    the result are finite and the result is the true sum or difference. *)
Definition exactly (op : float -> float -> float) (opZ : Z -> Z -> Z) (x y : float) : Prop :=
  match JsNumber.exactValue x, JsNumber.exactValue y with
  | Some a, Some b => JsNumber.exactValue (op x y) = Some (opZ a b)
  | _, _ => False
  end.

(** No operation of [getBalanceOfAddress(address)] rounds, from the balance
    [balance] on over the transactions [txs]; the amounts it uses are numbers. *)
Fixpoint balanceExact (address : jsval) (txs : list Transaction) (balance : float) : Prop :=
  match txs with
  | [] => True
  | tx :: rest =>
      let debit := strictEq (from tx) address in
      let credit := strictEq (to tx) address in
      match amount tx with
      | VNumber x =>
          let balance1 := if debit then (balance - x)%float else balance in
          let balance2 := if credit then (balance1 + x)%float else balance1 in
          (debit = true -> exactly PrimFloat.sub Z.sub balance x) /\
          (credit = true -> exactly PrimFloat.add Z.add balance1 x) /\
          balanceExact address rest balance2
      | _ => debit = false /\ credit = false /\ balanceExact address rest balance
      end
  end.

(** No addition rounds when the balances of [addrs] are added to [sum]. *)
Fixpoint sumExact (self : Blockchain) (addrs : list jsval) (sum : float) : Prop :=
  match addrs with
  | [] => True
  | a :: rest =>
      match getBalanceOfAddress a self with
      | Some b => exactly PrimFloat.add Z.add sum b /\ sumExact self rest (sum + b)%float
      | None => False
      end
  end.

(** The ledger's arithmetic is exact: neither a balance nor their sum rounds. *)
Definition noRounding (self : Blockchain) : Prop :=
  (forall a, In a (addresses self) -> balanceExact a (allTransactions self) 0%float) /\
  sumExact self (addresses self) 0%float.

(** Sender and recipient are strings. *)
Definition stringParties (tx : Transaction) : Prop :=
  (exists s, from tx = VString s) /\ (exists s, to tx = VString s).

(** The exact counterpart, in multiples of 2^-1074. *)
Definition amountZ (tx : Transaction) : Z :=
  match amount tx with
  | VNumber x => match JsNumber.exactValue x with Some z => z | None => 0 end
  | _ => 0
  end.

Definition deltaZ (address : jsval) (tx : Transaction) : Z :=
  ((if strictEq (to tx) address then amountZ tx else 0) -
   (if strictEq (from tx) address then amountZ tx else 0))%Z.

Fixpoint sumZ {A : Type} (f : A -> Z) (l : list A) : Z :=
  match l with
  | [] => 0%Z
  | a :: rest => (f a + sumZ f rest)%Z
  end.

Definition balanceZ (address : jsval) (txs : list Transaction) : Z :=
  sumZ (deltaZ address) txs.

(** The scenario of the specification: on the fresh ledger, "a" sends 10 to
    "b" and "b" sends 4 to "a". *)
Definition scenarioLedger : Blockchain :=
  {| chain := [genesisBlock 1700000000000];
     pendingTransactions :=
       [ {| from := VString "a"; to := VString "b"; amount := VNumber 10 |};
         {| from := VString "b"; to := VString "a"; amount := VNumber 4 |} ];
     difficulty := 3; miningReward := 1 |}.

(** ** Vocabulary: reading a JSON text for its string literals

    The state of the reader: is it inside a string literal, and was the
    last character an unescaped backslash. *)

Module Quotes.


Definition step (st : bool * bool) (c : ascii) : bool * bool :=
  let (inside, escaped) := st in
  if escaped then (inside, false)
  else if Ascii.eqb c JSON.backslash then (inside, true)
  else if Ascii.eqb c JSON.dquote then (negb inside, false)
  else (inside, false).






End Quotes.

Import Quotes.

(** * Part I, continued: the rest of the two files *)

(** ** Vocabulary: hexadecimal text *)

Definition lowerHexChar (c : ascii) : bool :=
  let n := N_of_ascii c in
  ((48 <=? n) && (n <=? 57) || (97 <=? n) && (n <=? 102))%N.

Fixpoint lowerHex (s : string) : bool :=
  match s with
  | EmptyString => true
  | String c rest => lowerHexChar c && lowerHex rest
  end.

(** ** Vocabulary: the life of a ledger *)

(** Every block after the first carries the digest of its own fingerprint
    and the hash of the block before it: the first two checks of
    [isChainValid], without the one on the difficulty. *)
Definition linked (c : list Block) : Prop :=
  forall i current previous,
    (1 <= i)%nat ->
    nth_error c i = Some current ->
    nth_error c (i - 1) = Some previous ->
    hash current = sha256 (toHashString current) /\
    previousHash current = hash previous.

(** The worlds the ledger goes through when its methods are called one
    after another, each call running to its end: the ledger is constructed
    on a store without an item, and from then on transactions are submitted,
    blocks are mined, the difficulty is set, the chain is reset and the
    page is loaded again on the store as it is.  (What the handlers of the
    page do between the awaits of a mining is the matter of [pageRun].) *)
Inductive reachable : World -> Prop :=
| reach_first (now : Z) (throws : bool) (w : World) :
    newBlockchain now {| vnc_blockchain := None; setItemThrows := throws |} = Returned tt w ->
    reachable w
| reach_createTransaction (tx : Transaction) (w w' : World) :
    reachable w -> createTransaction tx w = Returned tt w' -> reachable w'
| reach_mine (fuel : nat) (now : Z) (minerAddress : string) (w : World) (block : Block) (w' : World) :
    reachable w -> minePendingTransactions fuel now minerAddress w = Returned block w' ->
    reachable w'
| reach_difficulty (d : N) (w : World) :
    reachable w -> reachable (withDifficulty d w)
| reach_reset (now : Z) (w w' : World) :
    reachable w -> reset now w = Returned tt w' -> reachable w'
| reach_reload (now : Z) (w w' : World) :
    reachable w -> newBlockchain now (localStorage w) = Returned tt w' -> reachable w'.

(** What every reachable world satisfies: the chain is not empty and is
    linked, and so is the chain in the store. *)
Definition sound (w : World) : Prop :=
  chain (this w) <> [] /\
  linked (chain (this w)) /\
  forall p, vnc_blockchain (localStorage w) = Some p -> linked (persistedChain p).

(** [chain[i] = block], for an index [i] of the chain. *)
Definition replaceBlock (i : nat) (block : Block) (c : list Block) : list Block :=
  (firstn i c ++ block :: skipn (S i) c)%list.

Definition withChain (c : list Block) (w : World) : World :=
  {| this := setChain c (this w); localStorage := localStorage w |}.

(** The second block of the examples: mined on [firstMinedWorld] for "bob"
    at 1700000002000 ms, still at difficulty 1. *)
Definition secondBlock : Block :=
  {| timestamp := 1700000002000;
     transactions := [rewardTransaction "alice" 1];
     previousHash := "078b4145529d55216152288edb0c90fe09d0e09f9c3675b360e413c25acdf05b";
     nonce := 5;
     hash := "0604214407941054c26746f628123f5428783d48ad6058fc8dcf5533ac0aac80" |}.

Definition secondMinedWorld : World := afterMining "bob" secondBlock firstMinedWorld.

(** A ledger whose queue holds an infinite amount, on an empty store. *)
Definition store_witness_world : World :=
  {| this := {| chain := chain (this firstMinedWorld);
                pendingTransactions :=
                  [ {| from := VString "a"; to := VString "b"; amount := VNumber infinity |} ];
                difficulty := 1; miningReward := 1 |};
     localStorage := emptyStorage |}.

(** ** The handlers of the page ([blockchain.js], UI wiring) *)

(** [a || b] *)
Definition orElse (a b : jsval) : jsval := if truthy a then a else b.

(** The transaction the click handler of [btn-add-tx] builds.  [sender] and
    [recipient] are the texts of the two inputs after [trim()], and
    [parsed] is what [parseFloat] returns for the text of the third. *)
Definition clickTransaction (sender recipient : string) (parsed : float) : Transaction :=
  {| from := orElse (VString sender) (VString "anonymous");
     to := orElse (VString recipient) (VString "anonymous");
     amount := orElse (VNumber parsed) (VNumber 0) |}.

(** The click handler of [btn-add-tx]: the world it leaves and the message
    it alerts, if any.  (The two rendering calls write to the page only.) *)
Definition addTransactionClick (sender recipient : string) (parsed : float) (w : World)
  : World * option string :=
  match createTransaction (clickTransaction sender recipient parsed) w with
  | Returned _ w' => (w', None)
  | Threw message w' => (w', Some message)
  | Pending => (w, None)
  end.

(** What [parseInt(text, 10)] returns: NaN, an integer, or an infinity (for a
    numeral too long for a double). *)
Inductive jsInteger : Type :=
| JNaN
| JInt (z : Z)
| JInfinity (negative : bool).

Definition jsInteger_le (a b : jsInteger) : bool :=
  match a, b with
  | JInt x, JInt y => (x <=? y)%Z
  | JInfinity true, _ => true
  | _, JInfinity false => true
  | _, _ => false
  end.

(** [Math.min(a, b)] and [Math.max(a, b)] *)
Definition Math_min (a b : jsInteger) : jsInteger :=
  match a, b with
  | JNaN, _ | _, JNaN => JNaN
  | _, _ => if jsInteger_le a b then a else b
  end.

Definition Math_max (a b : jsInteger) : jsInteger :=
  match a, b with
  | JNaN, _ | _, JNaN => JNaN
  | _, _ => if jsInteger_le a b then b else a
  end.

(** [parsed || 3]: NaN and 0 are falsy. *)
Definition orThree (parsed : jsInteger) : jsInteger :=
  match parsed with
  | JNaN | JInt 0 => JInt 3
  | _ => parsed
  end.

(** [Math.max(1, Math.min(6, diff))] with [diff = parseInt(...) || 3] *)
Definition clampDifficulty (parsed : jsInteger) : jsInteger :=
  Math_max (JInt 1) (Math_min (JInt 6) (orThree parsed)).

(** The number kept in the ledger's [difficulty], a natural number in this
    embedding; the handler assigns integers from 1 to 6 only. *)
Definition asDifficulty (v : jsInteger) : N :=
  match v with
  | JInt z => Z.to_N z
  | _ => 0%N
  end.


(** ** The testimonial slider ([script.js]) *)

Module Slider.

(** The numbers the slider computes with: integers, and NaN. *)
Inductive number : Type :=
| NaN
| Int (z : Z).

Definition add (a b : number) : number :=
  match a, b with
  | Int x, Int y => Int (x + y)
  | _, _ => NaN
  end.

Definition sub (a b : number) : number :=
  match a, b with
  | Int x, Int y => Int (x - y)
  | _, _ => NaN
  end.

(** [a % b]: the remainder has the sign of [a]; there is none by 0. *)
Definition rem (a b : number) : number :=
  match a, b with
  | Int x, Int y => if (y =? 0)%Z then NaN else Int (Z.rem x y)
  | _, _ => NaN
  end.

(** The slider: [currentSlide] and, for each element of [slides], the tokens
    of its [classList]. *)
Record state : Type := mkState {
  currentSlide : number;
  slides : list (list string)
}.

Inductive result : Type :=
| Done (s : state)
| TypeError (s : state).

(** [slides.length] *)
Definition totalSlides (s : state) : number := Int (Z.of_nat (List.length (slides s))).

(** [classList.remove(token)] and [classList.add(token)] *)
Definition classRemove (token : string) (classList : list string) : list string :=
  filter (fun t => negb (t =? token)%string) classList.

Definition classAdd (token : string) (classList : list string) : list string :=
  if existsb (String.eqb token) classList then classList else (classList ++ [token])%list.

Fixpoint adjust {A : Type} (f : A -> A) (i : nat) (l : list A) : list A :=
  match l, i with
  | [], _ => []
  | x :: rest, O => f x :: rest
  | x :: rest, S i' => x :: adjust f i' rest
  end.

(** [showSlide(index)]: [slides[index]] is [undefined] unless [index] is an
    index of the list, and then [.classList] throws, after every slide has
    lost its 'active'. *)
Definition showSlide (index : number) (s : state) : result :=
  let cleared := map (classRemove "active") (slides s) in
  match index with
  | Int z =>
      if (0 <=? z)%Z && (z <? Z.of_nat (List.length cleared))%Z
      then Done {| currentSlide := currentSlide s;
                   slides := adjust (classAdd "active") (Z.to_nat z) cleared |}
      else TypeError {| currentSlide := currentSlide s; slides := cleared |}
  | NaN => TypeError {| currentSlide := currentSlide s; slides := cleared |}
  end.

Definition nextSlide (s : state) : result :=
  let current := rem (add (currentSlide s) (Int 1)) (totalSlides s) in
  showSlide current {| currentSlide := current; slides := slides s |}.

Definition previousSlide (s : state) : result :=
  let current := rem (add (sub (currentSlide s) (Int 1)) (totalSlides s)) (totalSlides s) in
  showSlide current {| currentSlide := current; slides := slides s |}.

(** Is the slide at [i] shown: does its [classList] hold 'active'? *)
Definition active (s : state) (i : nat) : bool :=
  match nth_error (slides s) i with
  | Some classList => existsb (String.eqb "active") classList
  | None => false
  end.

(** The state a call leaves, thrown or not. *)
Definition stateOf (r : result) : state :=
  match r with
  | Done s => s
  | TypeError s => s
  end.

End Slider.

(** ** [throttle(func, wait)] ([script.js]) *)

Module Throttle.

Section Throttled.

(** The arguments a call passes on. *)
Variable A : Type.

(** The variable [timeout] of the closure, the timers it has pending (the
    identifier [setTimeout] returned and the arguments its callback [later]
    holds), the next identifier, and the calls of [func] made so far. *)
Record state : Type := mkState {
  timeout : option nat;
  timers : list (nat * A);
  nextId : nat;
  invoked : list A
}.

Definition initial : state :=
  {| timeout := None; timers := []; nextId := 1; invoked := [] |}.

(** [clearTimeout(id)]; [clearTimeout(undefined)] does nothing. *)
Definition clearTimeout (id : option nat) (pending : list (nat * A)) : list (nat * A) :=
  match id with
  | None => pending
  | Some n => filter (fun t => negb (fst t =? n)%nat) pending
  end.

(** [executedFunction(...args)] *)
Definition executedFunction (args : A) (s : state) : state :=
  let pending := clearTimeout (timeout s) (timers s) in
  {| timeout := Some (nextId s);
     timers := (pending ++ [(nextId s, args)])%list;
     nextId := S (nextId s);
     invoked := invoked s |}.

(** The timer [id] comes due: it leaves the pending timers and its callback
    [later] runs, which clears [timeout] and calls [func]. *)
Definition fire (id : nat) (s : state) : state :=
  match find (fun t => (fst t =? id)%nat) (timers s) with
  | None => s
  | Some (_, args) =>
      let pending := filter (fun t => negb (fst t =? id)%nat) (timers s) in
      {| timeout := timeout s;
         timers := clearTimeout (timeout s) pending;
         nextId := nextId s;
         invoked := (invoked s ++ [args])%list |}
  end.

(** What happens to a throttled function: it is called, or a timer fires. *)
Inductive event : Type :=
| Call (args : A)
| Fire (id : nat).

Definition step (s : state) (e : event) : state :=
  match e with
  | Call args => executedFunction args s
  | Fire id => fire id s
  end.

Definition run (events : list event) (s : state) : state := fold_left step events s.

End Throttled.

Arguments timeout {A} s.
Arguments timers {A} s.
Arguments nextId {A} s.
Arguments invoked {A} s.
Arguments Call {A} args.
Arguments Fire {A} id.

End Throttle.


(** At most one timer is pending, and it is the one [timeout] names. *)
Definition oneTimer {A : Type} (s : Throttle.state A) : Prop :=
  Throttle.timers s = [] \/
  exists id args, Throttle.timers s = [(id, args)] /\ Throttle.timeout s = Some id.

(** A page without testimonial cards. *)
Definition emptySlider : Slider.state :=
  {| Slider.currentSlide := Slider.Int 0; Slider.slides := [] |}.

(** Three cards, the first one shown. *)
Definition threeSlides : Slider.state :=
  {| Slider.currentSlide := Slider.Int 0;
     Slider.slides := [["testimonial-card"; "active"]; ["testimonial-card"]; ["testimonial-card"]] |}.

(** One tick of the auto-play, [setInterval(nextSlide, 5000)], or one press
    of an arrow key: the state the call leaves. *)
Definition tick (s : Slider.state) : Slider.state := Slider.stateOf (Slider.nextSlide s).

Definition tickBack (s : Slider.state) : Slider.state := Slider.stateOf (Slider.previousSlide s).

(** ** The page between the awaits of a mining ([blockchain.js]) *)

(** [minePendingTransactions] is an async function: it runs up to its first
    [await] at once and then gives way to the other handlers of the page at
    every turn of its loop.  A call in progress holds its candidate block,
    its target and the miner's address; it reads the ledger again only when
    the loop has ended. *)
Record Mining : Type := mkMining {
  miningBlock : Block;
  miningTarget : string;
  miningMiner : string
}.

(** The part of [minePendingTransactions] before the loop; [None] when
    [latestBlock()] is undefined and [.hash] throws. *)
Definition beginMining (now : Z) (minerAddress : string) (self : Blockchain) : option Mining :=
  match latestBlock self with
  | None => None
  | Some tip =>
      let block := newBlock now (pendingTransactions self) (hash tip) in
      let block := setNonce 0 block in
      let target := JsString.repeat "0" (N.to_nat (difficulty self)) in
      Some {| miningBlock := block; miningTarget := target; miningMiner := minerAddress |}
  end.

(** The part of [minePendingTransactions] after the loop, with the block
    the loop has sealed, on the ledger as it is by then. *)
Definition endMining (minerAddress : string) (block : Block) : M Block :=
  self <- getThis ;;
  modifyThis (fun self => setChain (chain self ++ [block]) self) ;;
  modifyThis (setPendingTransactions
    [ {| from := VString "network"; to := VString minerAddress;
         amount := VNumber (miningReward self) |} ]) ;;
  save ;;
  ret block.

(** The page: the ledger object [chainApp] with the store, and the mining
    in progress, if any.  While there is one, [btn-mine] is disabled. *)
Record Page : Type := mkPage {
  world : World;
  mining : option Mining
}.

(** What happens on the page: a click on one of the buttons that write to
    the ledger, the end of the mining loop after [attempts] digests, and the
    page loaded again.  ([btn-validate] and [btn-show-chain] only read.) *)
Inductive pageEvent : Type :=
| ClickAddTransaction (sender recipient : string) (parsed : float)
| ClickMine (now : Z) (miner : string) (parsed : jsInteger)
| MiningEnds (attempts : nat)
| ClickReset (now : Z)
| LoadPage (now : Z).

(** [new Blockchain()] at the load of the page. *)
Definition openPage (now : Z) (store : Storage) : option Page :=
  match newBlockchain now store with
  | Returned _ w => Some {| world := w; mining := None |}
  | _ => None
  end.

(** One event on the page; [None] when it cannot happen there: a click on
    the disabled [btn-mine], or the end of a loop that is not running or has
    not sealed its block within [attempts] digests. *)
Definition pageStep (p : Page) (e : pageEvent) : option Page :=
  match e with
  | ClickAddTransaction sender recipient parsed =>
      Some {| world := fst (addTransactionClick sender recipient parsed (world p));
              mining := mining p |}
  | ClickMine now miner parsed =>
      match mining p with
      | Some _ => None
      | None =>
          let miner := if (miner =? "")%string then "miner" else miner in
          let w := withDifficulty (asDifficulty (clampDifficulty parsed)) (world p) in
          Some {| world := w; mining := beginMining now miner (this w) |}
      end
  | MiningEnds attempts =>
      match mining p with
      | None => None
      | Some job =>
          match mineLoop attempts (miningTarget job) (miningBlock job) with
          | None => None
          | Some block =>
              match endMining (miningMiner job) block (world p) with
              | Returned _ w => Some {| world := w; mining := None |}
              | _ => None
              end
          end
      end
  | ClickReset now =>
      match reset now (world p) with
      | Returned _ w => Some {| world := w; mining := mining p |}
      | _ => None
      end
  | LoadPage now => openPage now (localStorage (world p))
  end.

Fixpoint pageRun (events : list pageEvent) (p : Page) : option Page :=
  match events with
  | [] => Some p
  | e :: rest =>
      match pageStep p e with
      | Some p' => pageRun rest p'
      | None => None
      end
  end.

(** No click on [btn-reset] comes while a block is being mined. *)
Fixpoint noResetWhileMining (events : list pageEvent) (p : Page) : bool :=
  match events with
  | [] => true
  | e :: rest =>
      match e, mining p with
      | ClickReset _, Some _ => false
      | _, _ =>
          match pageStep p e with
          | Some p' => noResetWhileMining rest p'
          | None => true
          end
      end
  end.

(** The mining in progress, if any, works on a block that follows the tip
    of the chain as it is now. *)
Definition followsTheTip (p : Page) : Prop :=
  forall job, mining p = Some job ->
  exists tip, latestBlock (this (world p)) = Some tip /\
              previousHash (miningBlock job) = hash tip.

(** The page as first opened at 1700000000000 ms on an empty store. *)
Definition firstPage : Page := {| world := freshWorld; mining := None |}.

(** ** A chain with an infinite amount *)

(** On the fresh ledger at difficulty 1, "a" sends Infinity to "b"; "alice"
    mines at 1700000001000 ms and "bob" at 1700000002000 ms. *)
Definition infiniteBlock : Block :=
  {| timestamp := 1700000001000;
     transactions := [ {| from := VString "a"; to := VString "b"; amount := VNumber infinity |} ];
     previousHash := "0";
     nonce := 4;
     hash := "0a4b7734d3b510865bfa0b9964ca50fb6b8db4cf9638b2731e08b2d34053f7a3" |}.

Definition blockAfterInfinite : Block :=
  {| timestamp := 1700000002000;
     transactions := [rewardTransaction "alice" 1];
     previousHash := "0a4b7734d3b510865bfa0b9964ca50fb6b8db4cf9638b2731e08b2d34053f7a3";
     nonce := 6;
     hash := "0e92c5ff26be8bb870173fab05ea3f619d137502fdbe23cba7ee1b70b6da06e6" |}.

Definition infiniteWorld : World :=
  afterMining "bob" blockAfterInfinite
    (afterMining "alice" infiniteBlock
       {| this := setPendingTransactions
                    [ {| from := VString "a"; to := VString "b"; amount := VNumber infinity |} ]
                    (this (withDifficulty 1 freshWorld));
          localStorage := localStorage freshWorld |}).

(** [infiniteBlock] with the amount -Infinity in the place of Infinity. *)
Definition alteredBlock : Block :=
  {| timestamp := 1700000001000;
     transactions :=
       [ {| from := VString "a"; to := VString "b"; amount := VNumber neg_infinity |} ];
     previousHash := "0";
     nonce := 4;
     hash := "0a4b7734d3b510865bfa0b9964ca50fb6b8db4cf9638b2731e08b2d34053f7a3" |}.

(** * Part II: properties *)

(** ** The functions run *)

Example sha256_constants :
  nth 0 Sha256.K 0%N = 0x428a2f98%N /\ nth 63 Sha256.K 0%N = 0xc67178f2%N /\
  Sha256.sa Sha256.H0 = 0x6a09e667%N /\ Sha256.sh Sha256.H0 = 0x5be0cd19%N.
Proof. repeat split. Qed.

Example sha256_empty :
  sha256 "" = "e3b0c44298fc1c149afbf4c8996fb92427ae41e4649b934ca495991b7852b855".
Proof. vm_compute. reflexivity. Qed.

Example sha256_abc :
  sha256 "abc" = "ba7816bf8f01cfea414140de5dae2223b00361a396177a9cb410ff61f20015ad".
Proof. vm_compute. reflexivity. Qed.

Example sha256_two_blocks :
  sha256 "abcdbcdecdefdefgefghfghighijhijkijkljklmklmnlmnomnopnopq"
  = "248d6a61d20638b8e5c026930c3e6039a33ce45964ff2167f6ecedd419db06c1".
Proof. vm_compute. reflexivity. Qed.

Example toString_samples :
  map JsNumber.toString [1; 10; 0.5; 1.5; 0x1.999999999999ap-4; 0x1.3333333333334p-2;
                         1e21; 0x1.52d02c7e14af6p+76; 0x0.0000000000001p-1022; -4]%float
  = ["1"; "10"; "0.5"; "1.5"; "0.1"; "0.30000000000000004"; "1e+21"; "1e+23"; "5e-324"; "-4"].
Proof. vm_compute. reflexivity. Qed.

(** ** Strings: basic facts *)



Lemma length_append (a b : string) :
  String.length (a ++ b) = (String.length a + String.length b)%nat.
Proof. induction a as [|x a IH]; simpl; [reflexivity | now rewrite IH]. Qed.

Lemma length_repeat (c : ascii) (n : nat) : String.length (JsString.repeat c n) = n.
Proof. induction n as [|n IH]; simpl; [reflexivity | now rewrite IH]. Qed.

Lemma startsWith_length (target s : string) :
  JsString.startsWith target s = true -> (String.length target <= String.length s)%nat.
Proof.
  revert s; induction target as [|a t IH]; intros s H; simpl in *.
  - lia.
  - destruct s as [|b s]; [discriminate|].
    apply andb_true_iff in H as [_ H]. apply IH in H. simpl. lia.
Qed.

(** ** The digest is 64 characters long *)

Lemma length_be_bytes (n : nat) (x : N) : List.length (Sha256.be_bytes n x) = n.
Proof. induction n as [|n IH]; simpl; [reflexivity | now rewrite IH]. Qed.

Lemma length_digest (msg : list N) : List.length (Sha256.digest msg) = 32%nat.
Proof.
  unfold Sha256.digest. cbv zeta.
  repeat rewrite length_app. repeat rewrite length_be_bytes. reflexivity.
Qed.

Lemma length_concat_hexByte (bytes : list N) :
  String.length (String.concat "" (map hexByte bytes)) = (2 * List.length bytes)%nat.
Proof.
  induction bytes as [|b [|b' rest] IH].
  - reflexivity.
  - reflexivity.
  - change (String.concat "" (map hexByte (b :: b' :: rest)))
      with (hexByte b ++ String.concat "" (map hexByte (b' :: rest))).
    rewrite length_append, IH. simpl. lia.
Qed.

Lemma length_sha256 (message : string) : String.length (sha256 message) = 64%nat.
Proof. unfold sha256. rewrite length_concat_hexByte, length_digest. reflexivity. Qed.

(** A target longer than the digest is never met. *)
Lemma target_too_long (d : nat) (message : string) :
  (64 < d)%nat -> JsString.startsWith (JsString.repeat "0" d) (sha256 message) = false.
Proof.
  intros Hd. destruct (JsString.startsWith _ _) eqn:E; [|reflexivity].
  apply startsWith_length in E. rewrite length_repeat, length_sha256 in E. lia.
Qed.

(** ** The examples are what the program computes *)

Example freshWorld_is_constructed :
  newBlockchain 1700000000000 emptyStorage = Returned tt freshWorld.
Proof. reflexivity. Qed.

(** ** Records and the monad: rewriting facts *)

Ltac run_method :=
  cbv [bind ret throw getThis modifyThis getStorage putStorage] in *; cbn [this localStorage] in *.

Lemma rebuild_block (b : Block) :
  setHash (hash b) (setNonce (nonce b) (newBlock (timestamp b) (transactions b) (previousHash b))) = b.
Proof. destruct b; reflexivity. Qed.

Lemma setNonce_setNonce (n m : N) (b : Block) : setNonce n (setNonce m b) = setNonce n b.
Proof. reflexivity. Qed.

(** [save()] always returns; it changes nothing of the ledger object. *)
Lemma save_returns (w : World) :
  save w = Returned tt
    {| this := this w;
       localStorage :=
         if setItemThrows (localStorage w) then localStorage w
         else {| vnc_blockchain :=
                   Some (stringifyParse (chain (this w)) (pendingTransactions (this w)));
                 setItemThrows := false |} |}.
Proof.
  unfold save. run_method. destruct w as [self store]; cbn.
  destruct (setItemThrows store); reflexivity.
Qed.

(** [load()] on a store that holds an item. *)
Lemma load_item (self : Blockchain) (store : Storage) (parsed : Persisted) :
  vnc_blockchain store = Some parsed ->
  load {| this := self; localStorage := store |}
  = Returned tt
      {| this := {| chain := persistedChain parsed;
                    pendingTransactions := persistedPending parsed;
                    difficulty := difficulty self;
                    miningReward := miningReward self |};
         localStorage := store |}.
Proof.
  intros H. unfold load. run_method. rewrite H. cbn.
  unfold setPendingTransactions, setChain; cbn. do 3 f_equal.
  rewrite <- (map_id (persistedChain parsed)) at 2.
  apply map_ext. intros b. apply rebuild_block.
Qed.

Lemma load_nothing (self : Blockchain) (store : Storage) :
  vnc_blockchain store = None ->
  load {| this := self; localStorage := store |}
  = Returned tt {| this := self; localStorage := store |}.
Proof. intros H. unfold load. run_method. rewrite H. reflexivity. Qed.

(** ** Resetting (C10) *)

(** C10. After [reset()] the chain holds exactly one block, the genesis
    block with previousHash "0", hash "0", nonce 0 and the single transaction
    from "genesis" to "network" of amount 0, and the pending queue is empty:
    it holds no reward transaction. *)
Theorem reset_leaves_genesis (now : Z) (w : World) :
  exists w', reset now w = Returned tt w' /\
    chain (this w') =
      [ {| timestamp := now;
           transactions := [ {| from := VString "genesis"; to := VString "network";
                                amount := VNumber 0 |} ];
           previousHash := "0"; nonce := 0; hash := "0" |} ] /\
    pendingTransactions (this w') = [].
Proof.
  unfold reset, createGenesisBlock, save. run_method.
  destruct w as [self store]; cbn.
  destruct (setItemThrows store); eexists; repeat split.
Qed.

(** ** What the store keeps (C9) *)

(** C9. The stored item is made of the chain and the pending queue only:
    whatever the difficulty and the mining reward were when [save()] ran, a
    ledger constructed afterwards from that store has difficulty 3 and
    mining reward 1. *)
Theorem reload_forgets_settings (now : Z) (w : World) :
  exists w1 w2,
    save w = Returned tt w1 /\
    (setItemThrows (localStorage w) = false ->
     vnc_blockchain (localStorage w1)
     = Some (stringifyParse (chain (this w)) (pendingTransactions (this w)))) /\
    newBlockchain now (localStorage w1) = Returned tt w2 /\
    difficulty (this w2) = 3%N /\
    miningReward (this w2) = 1%float.
Proof.
  eexists. rewrite save_returns.
  assert (forall store, exists w2, newBlockchain now store = Returned tt w2 /\
            difficulty (this w2) = 3%N /\ miningReward (this w2) = 1%float) as New.
  { intros store. unfold newBlockchain, bind at 1.
    destruct (vnc_blockchain store) as [parsed|] eqn:E.
    - rewrite (load_item _ _ _ E). run_method. cbn.
      destruct (persistedChain parsed) as [|b c]; cbn.
      + unfold createGenesisBlock, save. run_method. cbn.
        destruct (setItemThrows store); eexists; repeat split.
      + eexists; repeat split.
    - rewrite (load_nothing _ _ E). run_method. cbn.
      unfold createGenesisBlock, save. run_method. cbn.
      destruct (setItemThrows store); eexists; repeat split. }
  destruct (New (localStorage
    {| this := this w;
       localStorage :=
         if setItemThrows (localStorage w) then localStorage w
         else {| vnc_blockchain :=
                   Some (stringifyParse (chain (this w)) (pendingTransactions (this w)));
                 setItemThrows := false |} |})) as (w2 & H1 & H2 & H3).
  exists w2. repeat split; try assumption.
  cbn. intros ->. reflexivity.
Qed.

(** ** Submitting a transaction (C3) *)

Lemma guard_is_not_accepted (tx : Transaction) :
  negb (truthy (from tx)) || negb (truthy (to tx)) || notANumber (amount tx)
  = negb (accepted tx).
Proof.
  unfold accepted, notANumber.
  destruct (truthy (from tx)), (truthy (to tx)), (amount tx) as [| |b|x|s]; cbn;
    try reflexivity.
  now rewrite negb_involutive.
Qed.

(** C3, as the code has it.  [createTransaction(tx)] succeeds exactly when
    [from] and [to] are truthy and [amount] is a number that is not NaN
    (an infinite amount is let through).  On success [tx] is appended to the
    end of the pending queue, the earlier entries keeping their order, and
    nothing else of the ledger object changes; on failure it throws
    'Invalid transaction' and the ledger object and the store are as before. *)
Theorem createTransaction_guard (tx : Transaction) (w : World) :
  if accepted tx then
    exists w',
      createTransaction tx w = Returned tt w' /\
      pendingTransactions (this w') = (pendingTransactions (this w) ++ [tx])%list /\
      chain (this w') = chain (this w) /\
      difficulty (this w') = difficulty (this w) /\
      miningReward (this w') = miningReward (this w)
  else createTransaction tx w = Threw "Invalid transaction" w.
Proof.
  unfold createTransaction. rewrite guard_is_not_accepted.
  destruct (accepted tx); cbn [negb].
  - unfold bind at 1. unfold modifyThis at 1. rewrite save_returns. cbn.
    eexists; repeat split.
  - reflexivity.
Qed.

(** An infinite amount is not a finite number, and is accepted. *)
Lemma createTransaction_takes_infinity :
  let tx := {| from := VString "a"; to := VString "b"; amount := VNumber infinity |} in
  validBySpec tx = false /\
  exists w',
    createTransaction tx freshWorld = Returned tt w' /\
    pendingTransactions (this w') = [tx].
Proof. cbv zeta. split; [reflexivity|]. eexists. split; reflexivity. Qed.

(** ** Saving and loading (C6) *)

Lemma reread_transactions (txs : list Transaction) :
  Forall transactionSurvivesJSON txs -> map rereadTransaction txs = txs.
Proof.
  induction 1 as [|tx txs (Hf & Ht & Ha) _ IH]; cbn; [reflexivity|].
  rewrite IH. f_equal. unfold rereadTransaction.
  unfold survivesJSON in *. rewrite Hf, Ht, Ha. destruct tx; reflexivity.
Qed.

Lemma reread_blocks (c : list Block) :
  Forall (fun b => Forall transactionSurvivesJSON (transactions b)) c ->
  map rereadBlock c = c.
Proof.
  induction 1 as [|b c Hb _ IH]; cbn; [reflexivity|].
  rewrite IH. f_equal. unfold rereadBlock. rewrite (reread_transactions _ Hb).
  destruct b; reflexivity.
Qed.

(** C6, as the code has it.  When [setItem] succeeds, [save()] followed by
    [load()] (on any ledger object reading that store) yields the saved
    chain and pending queue with every transaction field passed through
    JSON: timestamp, previousHash, nonce and hash of each block are restored
    verbatim, in the same order.  When moreover every transaction field
    survives JSON (no NaN, no infinity, no -0), the chain and the pending
    queue are identical to the saved ones. *)
Theorem save_then_load (w : World) (other : Blockchain) :
  setItemThrows (localStorage w) = false ->
  exists w1 w2,
    save w = Returned tt w1 /\
    load {| this := other; localStorage := localStorage w1 |} = Returned tt w2 /\
    chain (this w2) = map rereadBlock (chain (this w)) /\
    pendingTransactions (this w2) = map rereadTransaction (pendingTransactions (this w)) /\
    (ledgerSurvivesJSON (this w) ->
     chain (this w2) = chain (this w) /\
     pendingTransactions (this w2) = pendingTransactions (this w)).
Proof.
  intros Hok. eexists. eexists. rewrite save_returns, Hok. cbn [localStorage].
  split; [reflexivity|]. split; [apply load_item; reflexivity|].
  cbn. repeat split.
  - apply reread_blocks, H.
  - apply reread_transactions, H.
Qed.

Lemma save_then_load_witness :
  exists w1 w2,
    save save_then_load_witness_world = Returned tt w1 /\
    load {| this := freshLedger; localStorage := localStorage w1 |} = Returned tt w2 /\
    chain (this w2) = map rereadBlock (chain (this save_then_load_witness_world)) /\
    pendingTransactions (this w2)
    = map rereadTransaction (pendingTransactions (this save_then_load_witness_world)) /\
    (ledgerSurvivesJSON (this save_then_load_witness_world) ->
     chain (this w2) = chain (this save_then_load_witness_world) /\
     pendingTransactions (this w2) = pendingTransactions (this save_then_load_witness_world)).
Proof. apply (save_then_load save_then_load_witness_world freshLedger). reflexivity. Defined.

(** A pending transaction of infinite amount, accepted by
    [createTransaction], comes back from the store with the amount [null]. *)
Lemma save_then_load_loses_infinity :
  let tx := {| from := VString "a"; to := VString "b"; amount := VNumber infinity |} in
  exists w0 w1 w2,
    createTransaction tx freshWorld = Returned tt w0 /\
    save w0 = Returned tt w1 /\
    load w1 = Returned tt w2 /\
    pendingTransactions (this w0) = [tx] /\
    pendingTransactions (this w2)
    = [ {| from := VString "a"; to := VString "b"; amount := VNull |} ] /\
    pendingTransactions (this w2) <> pendingTransactions (this w0).
Proof.
  cbv zeta. do 3 eexists. repeat split; try reflexivity. cbn. discriminate.
Qed.

(** The sign of a zero amount is lost as well: -0 is read back as 0. *)
Example save_then_load_drops_sign_of_zero :
  rereadTransaction {| from := VString "a"; to := VString "b"; amount := VNumber (-0) |}
  = {| from := VString "a"; to := VString "b"; amount := VNumber 0 |}.
Proof. reflexivity. Qed.

(** ** Mining (C1, C4) *)

Lemma increment_below (k : N) : (k < 2 ^ 53)%N -> JsNumber.increment k = (k + 1)%N.
Proof.
  intros H. unfold JsNumber.increment.
  destruct (N.ltb_spec k (2 ^ 53)); [reflexivity | lia].
Qed.

(** The loop stops at the first nonce that seals the block, and not before. *)
Lemma mineLoop_finds (target : string) (b : Block) (d : nat) :
  forall k : N,
    (k + N.of_nat d <= 2 ^ 53)%N ->
    (forall j, (j < d)%nat -> seals target (setNonce (k + N.of_nat j) b) = false) ->
    seals target (setNonce (k + N.of_nat d) b) = true ->
    forall fuel,
      mineLoop fuel target (setNonce k b)
      = if (d <? fuel)%nat then Some (sealed (setNonce (k + N.of_nat d) b)) else None.
Proof.
  induction d as [|d IH]; intros k Hk Hbelow Hhit fuel.
  - rewrite N.add_0_r in Hhit |- *. destruct fuel as [|fuel]; [reflexivity|].
    cbn [mineLoop Nat.ltb Nat.leb]. unfold seals in Hhit. rewrite Hhit. reflexivity.
  - destruct fuel as [|fuel]; [reflexivity|].
    cbn [mineLoop]. pose proof (Hbelow 0%nat ltac:(lia)) as H0.
    rewrite N.add_0_r in H0. unfold seals in H0. rewrite H0.
    cbn [nonce setNonce]. rewrite setNonce_setNonce.
    rewrite increment_below by lia.
    replace (k + N.of_nat (S d))%N with ((k + 1) + N.of_nat d)%N in * by lia.
    rewrite (IH (k + 1)%N); try assumption.
    + reflexivity.
    + intros j Hj. specialize (Hbelow (S j) ltac:(lia)).
      replace (k + N.of_nat (S j))%N with ((k + 1) + N.of_nat j)%N in Hbelow by lia.
      exact Hbelow.
Qed.

(** A target no digest meets keeps the loop going for ever. *)
Lemma mineLoop_never (target : string) :
  (forall message, JsString.startsWith target (sha256 message) = false) ->
  forall fuel b, mineLoop fuel target b = None.
Proof.
  intros H fuel. induction fuel as [|fuel IH]; intros b; cbn [mineLoop]; [reflexivity|].
  rewrite H. apply IH.
Qed.

(** The nonce never passes 2^53: when none up to there seals the block, the
    loop goes on for ever. *)
Lemma mineLoop_saturates (target : string) (b : Block) :
  (forall n, (n <= 2 ^ 53)%N -> seals target (setNonce n b) = false) ->
  forall fuel k, (k <= 2 ^ 53)%N -> mineLoop fuel target (setNonce k b) = None.
Proof.
  intros Hnone fuel. induction fuel as [|fuel IH]; intros k Hk; cbn [mineLoop]; [reflexivity|].
  pose proof (Hnone k Hk) as Hmiss. unfold seals in Hmiss. rewrite Hmiss.
  cbn [nonce setNonce]. rewrite setNonce_setNonce. apply IH.
  unfold JsNumber.increment. destruct (N.ltb_spec k (2 ^ 53)); lia.
Qed.

(** Among the nonces up to one that seals, there is a least one. *)
Lemma least_sealing (P : N -> bool) (d : nat) :
  forall k, P (k + N.of_nat d)%N = true ->
  exists j, (j <= d)%nat /\ P (k + N.of_nat j)%N = true /\
            forall i, (i < j)%nat -> P (k + N.of_nat i)%N = false.
Proof.
  induction d as [|d IH]; intros k H.
  - exists 0%nat. repeat split; [lia | exact H | intros i Hi; lia].
  - destruct (P k) eqn:Ek.
    + exists 0%nat. repeat split; [lia | now rewrite N.add_0_r | intros i Hi; lia].
    + replace (k + N.of_nat (S d))%N with ((k + 1) + N.of_nat d)%N in H by lia.
      destruct (IH _ H) as (j & Hj & Hhit & Hbelow).
      exists (S j). repeat split.
      * lia.
      * now replace (k + N.of_nat (S j))%N with ((k + 1) + N.of_nat j)%N by lia.
      * intros [|i] Hi; [now rewrite N.add_0_r|].
        replace (k + N.of_nat (S i))%N with ((k + 1) + N.of_nat i)%N by lia.
        apply Hbelow. lia.
Qed.

Lemma minePendingTransactions_runs (fuel : nat) (now : Z) (minerAddress : string) (w : World) :
  minePendingTransactions fuel now minerAddress w =
  match latestBlock (this w) with
  | None => Threw "TypeError" w
  | Some tip =>
      match mineLoop fuel (target (this w)) (candidate now (this w) tip 0) with
      | None => Pending
      | Some block => Returned block (afterMining minerAddress block w)
      end
  end.
Proof.
  unfold minePendingTransactions. unfold bind at 1. unfold getThis.
  destruct (latestBlock (this w)) as [tip|]; [|reflexivity].
  change (setNonce 0 (newBlock now (pendingTransactions (this w)) (hash tip)))
    with (candidate now (this w) tip 0).
  change (JsString.repeat "0" (N.to_nat (difficulty (this w)))) with (target (this w)).
  destruct (mineLoop fuel (target (this w)) (candidate now (this w) tip 0)) as [block|];
    [|reflexivity].
  unfold bind at 1. unfold modifyThis at 1. unfold bind at 1. unfold modifyThis at 1.
  unfold bind at 1. rewrite save_returns. reflexivity.
Qed.

(** With a nonce up to 2^53 that seals the candidate, the call returns the
    candidate sealed at the least such nonce, once the fuel exceeds it. *)
Lemma minePendingTransactions_returns
  (now : Z) (minerAddress : string) (w : World) (tip : Block) (n0 : N) :
  latestBlock (this w) = Some tip ->
  (n0 <= 2 ^ 53)%N ->
  seals (target (this w)) (candidate now (this w) tip n0) = true ->
  exists n : N,
    (n <= n0)%N /\
    seals (target (this w)) (candidate now (this w) tip n) = true /\
    (forall m, (m < n)%N -> seals (target (this w)) (candidate now (this w) tip m) = false) /\
    forall fuel,
      minePendingTransactions fuel now minerAddress w
      = if (N.to_nat n <? fuel)%nat
        then Returned (sealed (candidate now (this w) tip n))
                      (afterMining minerAddress (sealed (candidate now (this w) tip n)) w)
        else Pending.
Proof.
  intros Htip Hn0 Hseal.
  set (b := candidate now (this w) tip 0).
  assert (Hcand : forall k, candidate now (this w) tip k = setNonce k b) by reflexivity.
  destruct (least_sealing (fun k => seals (target (this w)) (setNonce k b)) (N.to_nat n0) 0%N)
    as (j & Hj & Hhit & Hbelow).
  { cbn beta. rewrite N.add_0_l, N2Nat.id, <- Hcand. exact Hseal. }
  cbn beta in Hhit, Hbelow. rewrite N.add_0_l in Hhit.
  pose proof (mineLoop_finds (target (this w)) b j 0%N) as Hloop.
  rewrite N.add_0_l in Hloop.
  specialize (Hloop ltac:(lia) (fun i Hi => Hbelow i Hi) Hhit).
  exists (N.of_nat j). rewrite Nat2N.id. repeat split.
  - lia.
  - exact Hhit.
  - intros m Hm. rewrite Hcand.
    specialize (Hbelow (N.to_nat m) ltac:(lia)).
    now rewrite N.add_0_l, N2Nat.id in Hbelow.
  - intros fuel. rewrite minePendingTransactions_runs, Htip.
    fold b. change b with (setNonce 0 b) at 1. rewrite Hloop.
    now destruct (j <? fuel)%nat.
Qed.

Example first_block_is_mined :
  minePendingTransactions 14 1700000001000 "alice" (withDifficulty 1 freshWorld)
  = Returned firstBlock firstMinedWorld.
Proof. vm_compute. reflexivity. Qed.

(** X25.  On a ledger with a non-empty chain, if some
    nonce up to 2^53 gives a digest that starts with [difficulty] characters
    '0', then [minePendingTransactions] returns (with enough fuel, and then
    always the same result; with less its promise is pending).  It appends
    exactly one block to the chain; the block's previousHash is the hash of
    the tip at the time of the call, its transactions are the pending queue
    at the time of the call, its hash starts with [difficulty] characters
    '0' and equals the digest of its fingerprint at its final nonce, and
    that nonce is the least one that seals the block: the search starts at 0
    and goes up by 1 at each failed attempt.  If no nonce up to 2^53 gives
    such a digest, the call never returns. *)
Theorem mining_seals_one_block
  (now : Z) (minerAddress : string) (w : World) (tip : Block) :
  latestBlock (this w) = Some tip ->
  (forall n0 : N,
     (n0 <= 2 ^ 53)%N ->
     seals (target (this w)) (candidate now (this w) tip n0) = true ->
     exists (n : N) (block : Block) (w' : World),
       (n <= n0)%N /\
       (forall fuel, (N.to_nat n < fuel)%nat ->
          minePendingTransactions fuel now minerAddress w = Returned block w') /\
       (forall fuel, (fuel <= N.to_nat n)%nat ->
          minePendingTransactions fuel now minerAddress w = Pending) /\
       chain (this w') = (chain (this w) ++ [block])%list /\
       previousHash block = hash tip /\
       transactions block = pendingTransactions (this w) /\
       timestamp block = now /\
       nonce block = n /\
       hash block = sha256 (toHashString block) /\
       JsString.startsWith (JsString.repeat "0" (N.to_nat (difficulty (this w))))
                           (hash block) = true /\
       (forall m, (m < n)%N ->
          seals (target (this w)) (candidate now (this w) tip m) = false)) /\
  ((forall n : N, (n <= 2 ^ 53)%N ->
      seals (target (this w)) (candidate now (this w) tip n) = false) ->
   forall fuel, minePendingTransactions fuel now minerAddress w = Pending).
Proof.
  intros Htip. split.
  - intros n0 Hn0 Hseal.
    destruct (minePendingTransactions_returns now minerAddress w tip n0 Htip Hn0 Hseal)
      as (n & Hn & Hhit & Hbelow & Hrun).
    exists n, (sealed (candidate now (this w) tip n)),
           (afterMining minerAddress (sealed (candidate now (this w) tip n)) w).
    repeat split.
    + exact Hn.
    + intros fuel Hfuel. rewrite Hrun.
      destruct (Nat.ltb_spec (N.to_nat n) fuel); [reflexivity | lia].
    + intros fuel Hfuel. rewrite Hrun.
      destruct (Nat.ltb_spec (N.to_nat n) fuel); [lia | reflexivity].
    + exact Hhit.
    + exact Hbelow.
  - intros Hnone fuel. rewrite minePendingTransactions_runs, Htip.
    change (candidate now (this w) tip 0) with (setNonce 0 (candidate now (this w) tip 0)).
    rewrite (mineLoop_saturates (target (this w)) (candidate now (this w) tip 0));
      [reflexivity | exact Hnone | lia].
Qed.

Lemma mining_seals_one_block_witness :
  exists (n : N) (block : Block) (w' : World),
    (n <= 13)%N /\
    (forall fuel, (N.to_nat n < fuel)%nat ->
       minePendingTransactions fuel 1700000001000 "alice" (withDifficulty 1 freshWorld)
       = Returned block w') /\
    (forall fuel, (fuel <= N.to_nat n)%nat ->
       minePendingTransactions fuel 1700000001000 "alice" (withDifficulty 1 freshWorld)
       = Pending) /\
    chain (this w') = (chain (this (withDifficulty 1 freshWorld)) ++ [block])%list /\
    previousHash block = hash (genesisBlock 1700000000000) /\
    transactions block = pendingTransactions (this (withDifficulty 1 freshWorld)) /\
    timestamp block = 1700000001000%Z /\
    nonce block = n /\
    hash block = sha256 (toHashString block) /\
    JsString.startsWith
      (JsString.repeat "0" (N.to_nat (difficulty (this (withDifficulty 1 freshWorld)))))
      (hash block) = true /\
    (forall m, (m < n)%N ->
       seals (target (this (withDifficulty 1 freshWorld)))
             (candidate 1700000001000 (this (withDifficulty 1 freshWorld))
                        (genesisBlock 1700000000000) m) = false).
Proof.
  apply (proj1 (mining_seals_one_block 1700000001000 "alice" (withDifficulty 1 freshWorld)
                  (genesisBlock 1700000000000) eq_refl) 13%N).
  - vm_compute. discriminate.
  - vm_compute. reflexivity.
Defined.

(** At difficulty 65 the target is longer than any digest: on the fresh
    ledger, whose chain holds the genesis block, the call never returns. *)
Lemma mining_never_returns_at_difficulty_65 :
  latestBlock (this (withDifficulty 65 freshWorld)) = Some (genesisBlock 1700000000000) /\
  ~ exists fuel block w',
      minePendingTransactions fuel 1700000001000 "alice" (withDifficulty 65 freshWorld)
      = Returned block w'.
Proof.
  split; [reflexivity|].
  intros (fuel & block & w' & H).
  rewrite minePendingTransactions_runs in H.
  change (latestBlock (this (withDifficulty 65 freshWorld)))
    with (Some (genesisBlock 1700000000000)) in H.
  cbv iota in H.
  rewrite mineLoop_never in H; [discriminate|].
  intros message. apply (target_too_long 65). lia.
Qed.

(** C4. Whenever [minePendingTransactions(minerAddress)] returns, the
    pending queue holds exactly one transaction, the reward from "network"
    to the miner of amount [miningReward]; what was pending before the call
    is no longer in the queue.  And the call does return, in that state,
    whenever the chain is not empty and some nonce up to 2^53 seals the
    candidate block. *)
Theorem pending_after_mining (now : Z) (minerAddress : string) (w : World) :
  (forall fuel block w',
     minePendingTransactions fuel now minerAddress w = Returned block w' ->
     pendingTransactions (this w')
     = [ {| from := VString "network"; to := VString minerAddress;
            amount := VNumber (miningReward (this w)) |} ] /\
     miningReward (this w') = miningReward (this w)) /\
  (forall tip n0,
     latestBlock (this w) = Some tip ->
     (n0 <= 2 ^ 53)%N ->
     seals (target (this w)) (candidate now (this w) tip n0) = true ->
     exists fuel block w',
       minePendingTransactions fuel now minerAddress w = Returned block w' /\
       pendingTransactions (this w')
       = [ {| from := VString "network"; to := VString minerAddress;
              amount := VNumber (miningReward (this w)) |} ]).
Proof.
  split.
  - intros fuel block w'. rewrite minePendingTransactions_runs.
    destruct (latestBlock (this w)) as [tip|]; [|discriminate].
    destruct (mineLoop _ _ _) as [b|]; [|discriminate].
    intros H. injection H as _ <-. split; reflexivity.
  - intros tip n0 Htip Hn0 Hseal.
    destruct (minePendingTransactions_returns now minerAddress w tip n0 Htip Hn0 Hseal)
      as (n & _ & _ & _ & Hrun).
    exists (S (N.to_nat n)). do 2 eexists. rewrite Hrun.
    destruct (Nat.ltb_spec (N.to_nat n) (S (N.to_nat n))); [|lia]. split; reflexivity.
Qed.

Lemma pending_after_mining_witness :
  pendingTransactions (this firstMinedWorld)
  = [ {| from := VString "network"; to := VString "alice";
         amount := VNumber (miningReward (this (withDifficulty 1 freshWorld))) |} ] /\
  miningReward (this firstMinedWorld) = miningReward (this (withDifficulty 1 freshWorld)).
Proof.
  apply (proj1 (pending_after_mining 1700000001000 "alice" (withDifficulty 1 freshWorld))
           14%nat firstBlock firstMinedWorld).
  vm_compute. reflexivity.
Defined.

(** ** Validating the chain (C2, C7) *)

Lemma isChainValidLoop_spec (self : Blockchain) (remaining : nat) :
  forall i, (1 <= i)%nat -> (i + remaining = List.length (chain self))%nat ->
  isChainValidLoop self i remaining = true <->
  forall j current previous,
    (i <= j)%nat ->
    nth_error (chain self) j = Some current ->
    nth_error (chain self) (j - 1) = Some previous ->
    linkChecks self current previous.
Proof.
  induction remaining as [|r IH]; intros i Hi Hlen.
  - cbn. split; [|reflexivity]. intros _ j current previous Hj Hc _.
    assert (nth_error (chain self) j <> None) as Hsome by congruence.
    apply nth_error_Some in Hsome. lia.
  - cbn [isChainValidLoop].
    destruct (nth_error (chain self) i) as [cur|] eqn:Ecur.
    2:{ apply nth_error_None in Ecur. lia. }
    destruct (nth_error (chain self) (i - 1)) as [prev|] eqn:Eprev.
    2:{ apply nth_error_None in Eprev. lia. }
    destruct (hash cur =? sha256 (toHashString cur)) eqn:E1; cbn [negb].
    2:{ split; [discriminate|]. intros H.
        destruct (H i cur prev (le_n _) Ecur Eprev) as (H1 & _).
        apply String.eqb_neq in E1. contradiction. }
    destruct (previousHash cur =? hash prev) eqn:E2; cbn [negb].
    2:{ split; [discriminate|]. intros H.
        destruct (H i cur prev (le_n _) Ecur Eprev) as (_ & H2 & _).
        apply String.eqb_neq in E2. contradiction. }
    destruct (JsString.startsWith _ (hash cur)) eqn:E3; cbn [negb].
    2:{ split; [discriminate|]. intros H.
        destruct (H i cur prev (le_n _) Ecur Eprev) as (_ & _ & H3).
        unfold linkChecks in H3. congruence. }
    rewrite (IH (S i)) by lia. split.
    + intros H j current previous Hj Hc Hp.
      destruct (Nat.eq_dec j i) as [->|Hne].
      * rewrite Ecur in Hc. rewrite Eprev in Hp.
        injection Hc as <-. injection Hp as <-.
        apply String.eqb_eq in E1, E2. repeat split; assumption.
      * apply (H j); [lia | assumption | assumption].
    + intros H j current previous Hj. apply H. lia.
Qed.

Lemma isChainValid_spec (self : Blockchain) :
  isChainValidLoop self 1 (List.length (chain self) - 1) = true <->
  forall j current previous,
    (1 <= j)%nat ->
    nth_error (chain self) j = Some current ->
    nth_error (chain self) (j - 1) = Some previous ->
    linkChecks self current previous.
Proof.
  destruct (chain self) as [|g rest] eqn:E.
  - cbn. split; [|reflexivity]. intros _ [|j] current previous _ H; discriminate.
  - rewrite <- E. apply isChainValidLoop_spec; [lia|]. rewrite E. cbn. lia.
Qed.

Lemma isChainValid_runs (w : World) :
  isChainValid w = Returned (isChainValidLoop (this w) 1 (List.length (chain (this w)) - 1)) w.
Proof. reflexivity. Qed.

(** C2. [isChainValid()] always returns, and returns [true] exactly when
    every block at an index from 1 on has a hash equal to the digest of its
    fingerprint, a previousHash equal to the hash of the block before it, and
    a hash that starts with as many '0' as the ledger's current difficulty.
    No check bears on the block at index 0, of which only the hash is read:
    the verdict is the same with any other block of that hash in its place.
    The call leaves the ledger object and the store as they were. *)
Theorem isChainValid_checks_every_link (w : World) :
  exists verdict : bool,
    isChainValid w = Returned verdict w /\
    (verdict = true <->
     forall i current previous,
       (1 <= i)%nat ->
       nth_error (chain (this w)) i = Some current ->
       nth_error (chain (this w)) (i - 1) = Some previous ->
       hash current = sha256 (toHashString current) /\
       previousHash current = hash previous /\
       JsString.startsWith (JsString.repeat "0" (N.to_nat (difficulty (this w))))
                           (hash current) = true) /\
    (forall genesis genesis' rest,
       chain (this w) = genesis :: rest ->
       hash genesis' = hash genesis ->
       let w' := {| this := setChain (genesis' :: rest) (this w);
                    localStorage := localStorage w |} in
       isChainValid w' = Returned verdict w').
Proof.
  exists (isChainValidLoop (this w) 1 (List.length (chain (this w)) - 1)).
  split; [apply isChainValid_runs|]. split; [apply isChainValid_spec|].
  intros genesis genesis' rest Hchain Hhash w'. rewrite isChainValid_runs. f_equal.
  apply eq_true_iff_eq. rewrite !isChainValid_spec. subst w'. cbn [this chain setChain].
  rewrite Hchain.
  assert (forall (s s' : Blockchain) (g g' : Block),
            difficulty s' = difficulty s -> hash g' = hash g ->
            (forall j current previous, (1 <= j)%nat ->
               nth_error (g :: rest) j = Some current ->
               nth_error (g :: rest) (j - 1) = Some previous ->
               linkChecks s current previous) ->
            forall j current previous, (1 <= j)%nat ->
               nth_error (g' :: rest) j = Some current ->
               nth_error (g' :: rest) (j - 1) = Some previous ->
               linkChecks s' current previous) as Swap.
  { intros s s' g g' Hd Hh H j current previous Hj Hc Hp.
    unfold linkChecks in *. rewrite Hd.
    destruct j as [|[|j]]; [lia| |].
    - cbn in Hc, Hp. injection Hp as <-.
      destruct (H 1%nat current g (le_n _) Hc eq_refl) as (H1 & H2 & H3).
      repeat split; [assumption | congruence | assumption].
    - apply (H (S (S j))); assumption. }
  split; intros H.
  - exact (Swap _ _ genesis' genesis eq_refl (eq_sym Hhash) H).
  - exact (Swap _ _ genesis genesis' eq_refl Hhash H).
Qed.

(** What the loop returns is a candidate of the same content, sealed. *)
Lemma mineLoop_sound (target : string) (fuel : nat) :
  forall b b', mineLoop fuel target b = Some b' ->
  exists n, b' = sealed (setNonce n b) /\ seals target (setNonce n b) = true.
Proof.
  induction fuel as [|fuel IH]; intros b b' H; [discriminate|].
  cbn [mineLoop] in H.
  destruct (JsString.startsWith target (sha256 (toHashString b))) eqn:E.
  - injection H as <-. exists (nonce b).
    replace (setNonce (nonce b) b) with b by (destruct b; reflexivity).
    split; [reflexivity | exact E].
  - apply IH in H as (n & -> & Hs). rewrite setNonce_setNonce in *.
    exists n. split; [reflexivity | exact Hs].
Qed.

(** C7, as the code has it.  If the chain passes [isChainValid()] under the
    current difficulty (as it does when no block was mined at a lower
    difficulty or altered since), it passes again right after a call of
    [minePendingTransactions] has returned. *)
Theorem valid_after_mining
  (fuel : nat) (now : Z) (minerAddress : string) (w : World) (block : Block) (w' : World) :
  isChainValid w = Returned true w ->
  minePendingTransactions fuel now minerAddress w = Returned block w' ->
  isChainValid w' = Returned true w'.
Proof.
  rewrite !isChainValid_runs. intros Hvalid Hmine.
  injection Hvalid as Hvalid. rewrite isChainValid_spec in Hvalid.
  rewrite minePendingTransactions_runs in Hmine.
  destruct (latestBlock (this w)) as [tip|] eqn:Etip; [|discriminate].
  destruct (mineLoop _ _ _) as [b|] eqn:Eloop; [|discriminate].
  injection Hmine as -> <-.
  apply mineLoop_sound in Eloop as (n & -> & Hseal).
  f_equal. apply isChainValid_spec. cbn [this chain afterMining].
  intros j current previous Hj Hc Hp.
  unfold latestBlock in Etip.
  destruct (Nat.lt_trichotomy j (List.length (chain (this w)))) as [Hlt|[->|Hgt]].
  - rewrite nth_error_app1 in Hc, Hp by lia.
    destruct (Hvalid j current previous Hj Hc Hp) as (H1 & H2 & H3).
    repeat split; assumption.
  - rewrite nth_error_app2 in Hc by lia. rewrite Nat.sub_diag in Hc.
    injection Hc as <-.
    destruct (chain (this w)) as [|g rest] eqn:Echain; [cbn in Hj; lia|].
    rewrite nth_error_app1 in Hp by (cbn; lia).
    rewrite Etip in Hp. injection Hp as <-.
    repeat split. exact Hseal.
  - assert (nth_error (chain (this w) ++ [sealed (setNonce n (candidate now (this w) tip 0))]) j
            <> None) as Hsome by congruence.
    apply nth_error_Some in Hsome. rewrite length_app in Hsome. cbn in Hsome. lia.
Qed.

Lemma valid_after_mining_witness : isChainValid firstMinedWorld = Returned true firstMinedWorld.
Proof.
  apply (valid_after_mining 14 1700000001000 "alice" (withDifficulty 1 freshWorld) firstBlock).
  - reflexivity.
  - vm_compute. reflexivity.
Defined.

(** A block mined at difficulty 1, then the difficulty set to 2 before the
    next block is mined, as the page allows: each block was produced by
    [minePendingTransactions] and none was altered, yet right after the
    second call [isChainValid()] returns [false], because the first block's
    hash has one leading '0' only. *)
Lemma raised_difficulty_invalidates :
  exists w1 block2 w2,
    minePendingTransactions 14 1700000001000 "alice" (withDifficulty 1 freshWorld)
    = Returned firstBlock w1 /\
    isChainValid w1 = Returned true w1 /\
    minePendingTransactions 140 1700000002000 "alice" (withDifficulty 2 w1)
    = Returned block2 w2 /\
    nonce block2 = 139%N /\
    isChainValid w2 = Returned false w2.
Proof.
  do 3 eexists. split; [apply first_block_is_mined|].
  split; [vm_compute; reflexivity|].
  split; [vm_compute; reflexivity|].
  split; [reflexivity|]. vm_compute. reflexivity.
Qed.

(** ** Balances (C5) *)

Lemma fold_left_flat_map {A B C : Type} (f : A -> C -> A) (g : B -> list C) (l : list B) (a : A) :
  fold_left (fun acc b => fold_left f (g b) acc) l a = fold_left f (flat_map g l) a.
Proof.
  revert a. induction l as [|b l IH]; intros a; cbn; [reflexivity|].
  rewrite fold_left_app. apply IH.
Qed.

Lemma getBalanceOfAddress_flat (address : jsval) (self : Blockchain) :
  getBalanceOfAddress address self
  = fold_left (applyTransaction address) (allTransactions self) (Some 0%float).
Proof.
  unfold getBalanceOfAddress, allTransactions. cbv zeta.
  rewrite fold_left_app. f_equal. apply fold_left_flat_map.
Qed.

Lemma addresses_flat (self : Blockchain) :
  addresses self = fold_left addParties (allTransactions self) [].
Proof.
  unfold addresses, allTransactions. cbv zeta.
  rewrite fold_left_app. f_equal. apply fold_left_flat_map.
Qed.

Lemma balance_run_exact (address : jsval) (txs : list Transaction) :
  forall (balance : float) (z : Z),
    JsNumber.exactValue balance = Some z ->
    balanceExact address txs balance ->
    exists f,
      fold_left (applyTransaction address) txs (Some balance) = Some f /\
      JsNumber.exactValue f = Some (z + balanceZ address txs)%Z.
Proof.
  induction txs as [|tx rest IH]; intros balance z Hz Hexact.
  - exists balance. split; [reflexivity|]. cbn. now rewrite Z.add_0_r.
  - cbn [balanceExact] in Hexact. cbn [fold_left]. unfold balanceZ. cbn [sumZ].
    fold (balanceZ address rest).
    unfold applyTransaction at 2. unfold deltaZ at 1. unfold amountZ.
    destruct (amount tx) as [| |b|x|s] eqn:Ea;
      try (destruct Hexact as (-> & -> & Hrest);
           destruct (IH balance z Hz Hrest) as (f & Hf & Hv);
           exists f; split; [exact Hf | rewrite Hv; f_equal; lia]).
    destruct Hexact as (Hdebit & Hcredit & Hrest).
    destruct (strictEq (from tx) address) eqn:Efrom.
    + specialize (Hdebit eq_refl). unfold exactly in Hdebit. rewrite Hz in Hdebit.
      destruct (JsNumber.exactValue x) as [zx|] eqn:Ex; [|contradiction].
      destruct (strictEq (to tx) address) eqn:Eto.
      * specialize (Hcredit eq_refl). unfold exactly in Hcredit.
        rewrite Hdebit, Ex in Hcredit.
        destruct (IH _ _ Hcredit Hrest) as (f & Hf & Hv).
        exists f. split; [exact Hf | rewrite Hv; f_equal; lia].
      * destruct (IH _ _ Hdebit Hrest) as (f & Hf & Hv).
        exists f. split; [exact Hf | rewrite Hv; f_equal; lia].
    + destruct (strictEq (to tx) address) eqn:Eto.
      * specialize (Hcredit eq_refl). unfold exactly in Hcredit. rewrite Hz in Hcredit.
        destruct (JsNumber.exactValue x) as [zx|] eqn:Ex; [|contradiction].
        destruct (IH _ _ Hcredit Hrest) as (f & Hf & Hv).
        exists f. split; [exact Hf | rewrite Hv; f_equal; lia].
      * destruct (IH _ _ Hz Hrest) as (f & Hf & Hv).
        exists f. split; [exact Hf | rewrite Hv; f_equal; lia].
Qed.

Lemma sumZ_add {A : Type} (f g : A -> Z) (l : list A) :
  sumZ (fun a => (f a + g a)%Z) l = (sumZ f l + sumZ g l)%Z.
Proof. induction l as [|a l IH]; cbn; [reflexivity | rewrite IH; lia]. Qed.

Lemma sumZ_sub {A : Type} (f g : A -> Z) (l : list A) :
  sumZ (fun a => (f a - g a)%Z) l = (sumZ f l - sumZ g l)%Z.
Proof. induction l as [|a l IH]; cbn; [reflexivity | rewrite IH; lia]. Qed.

Lemma sumZ_zero {A : Type} (l : list A) : sumZ (fun _ => 0%Z) l = 0%Z.
Proof. induction l as [|a l IH]; cbn; [reflexivity | exact IH]. Qed.

(** In a list without repetition, the sum of [z] over the entries equal to
    [v] is [z] when [v] is listed. *)
Lemma sumZ_indicator {A : Type} (test : A -> bool) (v : A) (z : Z) (l : list A) :
  (forall a, test a = true <-> a = v) ->
  NoDup l -> In v l ->
  sumZ (fun a => if test a then z else 0%Z) l = z.
Proof.
  intros Htest. induction 1 as [|a l Hnotin Hnodup IH]; intros Hin; [contradiction|].
  cbn. destruct (test a) eqn:E.
  - apply Htest in E. subst a.
    assert (sumZ (fun a => if test a then z else 0%Z) l = 0%Z) as ->; [|lia].
    clear IH Hin Hnodup. induction l as [|b l IHl]; cbn; [reflexivity|].
    destruct (test b) eqn:Eb.
    + apply Htest in Eb. subst b. exfalso. apply Hnotin. now left.
    + apply IHl. intros H. apply Hnotin. now right.
  - destruct Hin as [->|Hin].
    + assert (test v = true) as Hv by now apply Htest. congruence.
    + rewrite (IH Hin). lia.
Qed.

Lemma strictEq_string (s : string) (a : jsval) : strictEq (VString s) a = true <-> a = VString s.
Proof.
  destruct a as [| |b|x|t]; cbn; try (split; [discriminate | intros H; discriminate H]).
  rewrite String.eqb_eq. split; [intros ->; reflexivity | intros H; now injection H].
Qed.

Lemma sameValueZero_refl (a : jsval) : sameValueZero a a = true.
Proof.
  destruct a as [| |b|x|s]; cbn; try reflexivity.
  - now destruct b.
  - unfold is_nan. now destruct (x =? x)%float.
  - apply String.eqb_refl.
Qed.

Lemma sameValueZero_setKey (a : jsval) : sameValueZero a (setKey a) = true.
Proof.
  destruct a as [| |b|x|s]; try apply sameValueZero_refl.
  unfold setKey. destruct (is_zero x) eqn:E; [|apply sameValueZero_refl].
  cbn [sameValueZero]. apply orb_true_iff. left. exact E.
Qed.

Lemma addAddress_NoDup (l : list jsval) (a : jsval) : NoDup l -> NoDup (addAddress l a).
Proof.
  intros H. unfold addAddress. destruct (existsb (sameValueZero a) l) eqn:E; [exact H|].
  apply NoDup_app; [exact H | repeat constructor; intros [] | ].
  intros b Hb [<-|[]].
  assert (existsb (sameValueZero a) l = true) as Hex; [|congruence].
  apply existsb_exists. exists (setKey a). split; [exact Hb | apply sameValueZero_setKey].
Qed.

Lemma addAddress_keeps (l : list jsval) (a b : jsval) : In b l -> In b (addAddress l a).
Proof.
  intros H. unfold addAddress. destruct (existsb _ l); [exact H|].
  apply in_or_app. now left.
Qed.

Lemma addAddress_adds_string (l : list jsval) (s : string) : In (VString s) (addAddress l (VString s)).
Proof.
  unfold addAddress. destruct (existsb _ l) eqn:E.
  - apply existsb_exists in E as (b & Hb & Heq).
    change (sameValueZero (VString s) b) with (strictEq (VString s) b) in Heq.
    apply strictEq_string in Heq. now subst b.
  - apply in_or_app. right. now left.
Qed.

Lemma addParties_fold (txs : list Transaction) :
  forall l, NoDup l ->
  NoDup (fold_left addParties txs l) /\
  (forall b, In b l -> In b (fold_left addParties txs l)) /\
  (forall tx, In tx txs -> stringParties tx ->
     In (from tx) (fold_left addParties txs l) /\ In (to tx) (fold_left addParties txs l)).
Proof.
  induction txs as [|tx rest IH]; intros l Hl; cbn [fold_left].
  - repeat split; [exact Hl | tauto | contradiction | contradiction].
  - assert (NoDup (addParties l tx)) as Hl'
        by (unfold addParties; now do 2 apply addAddress_NoDup).
    destruct (IH _ Hl') as (Hnodup & Hkeep & Hin).
    repeat split.
    + exact Hnodup.
    + intros b Hb. apply Hkeep. unfold addParties. now do 2 apply addAddress_keeps.
    + destruct H as [<-|Hrest]; [|now apply (Hin tx0)].
      destruct H0 as ((s & Hs) & _). apply Hkeep. unfold addParties.
      apply addAddress_keeps. rewrite Hs. apply addAddress_adds_string.
    + destruct H as [<-|Hrest]; [|now apply (Hin tx0)].
      destruct H0 as (_ & (s & Hs)). apply Hkeep. unfold addParties.
      rewrite Hs. apply addAddress_adds_string.
Qed.

(** In exact arithmetic the balances of the listed addresses add up to zero:
    each transaction takes from one listed address what it gives another. *)
Lemma conservation (l : list jsval) (txs : list Transaction) :
  NoDup l ->
  (forall tx, In tx txs -> stringParties tx /\ In (from tx) l /\ In (to tx) l) ->
  sumZ (fun a => balanceZ a txs) l = 0%Z.
Proof.
  intros Hl. induction txs as [|tx rest IH]; intros Htxs.
  - apply sumZ_zero.
  - change (sumZ (fun a => balanceZ a (tx :: rest)) l)
      with (sumZ (fun a => (deltaZ a tx + balanceZ a rest)%Z) l).
    rewrite (sumZ_add (fun a => deltaZ a tx) (fun a => balanceZ a rest)).
    rewrite IH by (intros tx' H; apply Htxs; now right).
    destruct (Htxs tx (or_introl eq_refl)) as (((sf & Hsf) & (st & Hst)) & Hfrom & Hto).
    unfold deltaZ.
    rewrite (sumZ_sub (fun a => if strictEq (to tx) a then amountZ tx else 0%Z)
                      (fun a => if strictEq (from tx) a then amountZ tx else 0%Z)).
    rewrite (sumZ_indicator (fun a => strictEq (to tx) a) (to tx)); try assumption.
    2:{ intros a. rewrite Hst. apply strictEq_string. }
    rewrite (sumZ_indicator (fun a => strictEq (from tx) a) (from tx)); try assumption.
    2:{ intros a. rewrite Hsf. apply strictEq_string. }
    lia.
Qed.

Lemma sum_run_exact (self : Blockchain) (addrs : list jsval) :
  (forall a, In a addrs -> balanceExact a (allTransactions self) 0%float) ->
  forall (sum : float) (z : Z),
    JsNumber.exactValue sum = Some z ->
    sumExact self addrs sum ->
    exists total,
      fold_left (fun sum a => match sum, getBalanceOfAddress a self with
                              | Some s, Some b => Some (s + b)%float
                              | _, _ => None
                              end) addrs (Some sum) = Some total /\
      JsNumber.exactValue total
      = Some (z + sumZ (fun a => balanceZ a (allTransactions self)) addrs)%Z.
Proof.
  induction addrs as [|a rest IH]; intros Hbal sum z Hz Hsum.
  - exists sum. split; [reflexivity|]. cbn. now rewrite Z.add_0_r.
  - cbn [sumExact] in Hsum. cbn [fold_left sumZ].
    destruct (balance_run_exact a (allTransactions self) 0%float 0%Z eq_refl
                (Hbal a (or_introl eq_refl))) as (f & Hf & Hv).
    rewrite <- getBalanceOfAddress_flat in Hf. rewrite Hf in Hsum |- *.
    destruct Hsum as (Hadd & Hrest). unfold exactly in Hadd. rewrite Hz, Hv in Hadd.
    destruct (IH (fun b Hb => Hbal b (or_intror Hb)) _ _ Hadd Hrest) as (total & Ht & Htv).
    exists total. split; [exact Ht|]. rewrite Htv. f_equal. lia.
Qed.

(** A double of exact value zero is [=== 0]. *)
Lemma exactValue_zero (x : float) : JsNumber.exactValue x = Some 0%Z -> (x =? 0)%float = true.
Proof.
  unfold JsNumber.exactValue. intros H. rewrite eqb_spec.
  pose proof (Prim2SF_valid x) as Hvalid.
  destruct (Prim2SF x) as [s|s| |s m e]; try discriminate.
  - now destruct s.
  - exfalso. cbn in Hvalid. unfold bounded, canonical_mantissa, fexp in Hvalid.
    apply andb_true_iff in Hvalid as (Hcanon & _).
    apply Z.eqb_eq in Hcanon.
    assert (-1074 <= e)%Z as He by (unfold emin, emax, prec in Hcanon; lia).
    injection H as H. rewrite Z.shiftl_mul_pow2 in H by lia.
    assert (0 < Z.pos m * 2 ^ (e + 1074))%Z by (apply Z.mul_pos_pos; [lia | apply Z.pow_pos_nonneg; lia]).
    unfold cond_Zopp in H. destruct s; lia.
Qed.

(** C5, as the code has it.  When the senders and recipients are strings
    and no subtraction or addition rounds (the amounts are finite numbers,
    and each balance and the running sum of the balances are exact), the
    balances of all the addresses that appear in the chain or in the pending
    queue add up to exactly zero. *)
Theorem balances_sum_to_zero (self : Blockchain) :
  Forall stringParties (allTransactions self) ->
  noRounding self ->
  exists total,
    sumOfBalances self = Some total /\
    JsNumber.exactValue total = Some 0%Z /\
    (total =? 0)%float = true.
Proof.
  intros Hparties (Hbal & Hsum).
  destruct (sum_run_exact self (addresses self) Hbal 0%float 0%Z eq_refl Hsum)
    as (total & Htotal & Hvalue).
  exists total. split; [exact Htotal|].
  assert (JsNumber.exactValue total = Some 0%Z) as Hzero.
  { rewrite Hvalue. f_equal. rewrite Z.add_0_l. rewrite addresses_flat.
    destruct (addParties_fold (allTransactions self) [] (NoDup_nil _)) as (Hnodup & _ & Hin).
    apply conservation; [exact Hnodup|].
    intros tx Htx. rewrite Forall_forall in Hparties.
    pose proof (Hparties tx Htx) as Hp. destruct (Hin tx Htx Hp) as (Hf & Ht).
    split; [exact Hp | split; [exact Hf | exact Ht]]. }
  split; [exact Hzero | now apply exactValue_zero].
Qed.

Example scenario_balances :
  getBalanceOfAddress (VString "a") scenarioLedger = Some (-6)%float /\
  getBalanceOfAddress (VString "b") scenarioLedger = Some 6%float /\
  getBalanceOfAddress (VString "nobody") scenarioLedger = Some 0%float.
Proof. repeat split. Qed.

Lemma balances_sum_to_zero_witness :
  exists total,
    sumOfBalances scenarioLedger = Some total /\
    JsNumber.exactValue total = Some 0%Z /\
    (total =? 0)%float = true.
Proof.
  apply (balances_sum_to_zero scenarioLedger).
  - repeat constructor; eexists; reflexivity.
  - split.
    + intros a Ha. vm_compute in Ha.
      destruct Ha as [<-|[<-|[<-|[<-|[]]]]]; vm_compute;
        repeat split; intros; try reflexivity; discriminate.
    + vm_compute. repeat split.
Defined.

(** Two accepted transactions of finite amounts 0.1 and 0.2: the balance of
    "a" is -0.30000000000000004, those of "b" and "c" are 0.1 and 0.2, and
    their sum is -2^-55, not zero. *)
Lemma rounding_breaks_conservation :
  let tx1 := {| from := VString "a"; to := VString "b";
                amount := VNumber 0x1.999999999999ap-4 |} in
  let tx2 := {| from := VString "a"; to := VString "c";
                amount := VNumber 0x1.999999999999ap-3 |} in
  exists w1 w2 total,
    createTransaction tx1 freshWorld = Returned tt w1 /\
    createTransaction tx2 w1 = Returned tt w2 /\
    Forall (fun tx => finiteNumber (amount tx) = true) (allTransactions (this w2)) /\
    sumOfBalances (this w2) = Some total /\
    total = (-0x1p-55)%float /\
    (total =? 0)%float = false.
Proof.
  cbv zeta. do 3 eexists.
  split; [reflexivity|]. split; [reflexivity|].
  split; [repeat constructor|].
  split; [vm_compute; reflexivity|].
  split; reflexivity.
Qed.

(** With an infinite amount, which [createTransaction] accepts, the sum is NaN. *)
Example infinity_breaks_conservation :
  sumOfBalances
    {| chain := [genesisBlock 1700000000000];
       pendingTransactions :=
         [ {| from := VString "a"; to := VString "b"; amount := VNumber infinity |} ];
       difficulty := 3; miningReward := 1 |}
  = Some nan.
Proof. vm_compute. reflexivity. Qed.

(** ** The fingerprint (C8) *)

(** *** String literals and bars in a JSON text *)























(** *** Cutting a string at a bar *)









(** * Part III: further properties of the two files *)

(** ** The digest as text *)

Lemma be_bytes_small (n : nat) (x : N) : Forall (fun b => (b < 256)%N) (Sha256.be_bytes n x).
Proof.
  induction n as [|n IH]; cbn [Sha256.be_bytes]; constructor; [|exact IH].
  change 0xFF%N with (N.ones 8). rewrite N.land_ones. now apply N.mod_lt.
Qed.

Lemma digest_small (msg : list N) : Forall (fun b => (b < 256)%N) (Sha256.digest msg).
Proof.
  unfold Sha256.digest. cbv zeta. repeat (apply Forall_app; split); apply be_bytes_small.
Qed.

Lemma lowerHex_app (a b : string) : lowerHex (a ++ b) = lowerHex a && lowerHex b.
Proof. induction a as [|c a IH]; cbn; [reflexivity | now rewrite IH, andb_assoc]. Qed.

Lemma lowerHex_hexDigit (d : N) : (d < 16)%N -> lowerHexChar (hexDigit d) = true.
Proof.
  intros H.
  assert (d = 0 \/ d = 1 \/ d = 2 \/ d = 3 \/ d = 4 \/ d = 5 \/ d = 6 \/ d = 7 \/
          d = 8 \/ d = 9 \/ d = 10 \/ d = 11 \/ d = 12 \/ d = 13 \/ d = 14 \/ d = 15)%N
    as Hd by lia.
  repeat (destruct Hd as [->|Hd]; [reflexivity|]). now subst d.
Qed.

Lemma lowerHex_hexByte (b : N) : (b < 256)%N -> lowerHex (hexByte b) = true.
Proof.
  intros H. unfold hexByte. cbn [lowerHex].
  rewrite !lowerHex_hexDigit; [reflexivity | |].
  - now apply N.mod_lt.
  - apply N.Div0.div_lt_upper_bound. exact H.
Qed.

(** X1.  [sha256] returns 64 characters, each one of 0-9 or a-f: two lower-case
    hexadecimal digits for each of the 32 bytes of the digest. *)
Theorem sha256_is_64_hex_digits (message : string) :
  String.length (sha256 message) = 64%nat /\ lowerHex (sha256 message) = true.
Proof.
  split; [apply length_sha256|].
  unfold sha256. pose proof (digest_small (encode message)) as H.
  induction H as [|b rest Hb _ IH]; [reflexivity|].
  destruct rest as [|b' rest].
  { change (String.concat "" (map hexByte [b])) with (hexByte b).
    now apply lowerHex_hexByte. }
  change (String.concat "" (map hexByte (b :: b' :: rest)))
    with (hexByte b ++ String.concat "" (map hexByte (b' :: rest))).
  now rewrite lowerHex_app, lowerHex_hexByte, IH.
Qed.

(** ** Constructing the ledger *)

Lemma newBlockchain_runs (now : Z) (store : Storage) :
  let c := match vnc_blockchain store with Some p => persistedChain p | None => [] end in
  let pending := match vnc_blockchain store with Some p => persistedPending p | None => [] end in
  newBlockchain now store =
  Returned tt
    match c with
    | [] =>
        {| this := {| chain := [genesisBlock now]; pendingTransactions := pending;
                      difficulty := 3; miningReward := 1 |};
           localStorage :=
             if setItemThrows store then store
             else {| vnc_blockchain := Some (stringifyParse [genesisBlock now] pending);
                     setItemThrows := false |} |}
    | _ :: _ =>
        {| this := {| chain := c; pendingTransactions := pending;
                      difficulty := 3; miningReward := 1 |};
           localStorage := store |}
    end.
Proof.
  cbv zeta. unfold newBlockchain, bind at 1.
  destruct (vnc_blockchain store) as [p|] eqn:E.
  - rewrite (load_item _ _ _ E). unfold bind at 1, getThis. cbn [this chain].
    destruct (persistedChain p) as [|b c]; cbn [List.length Nat.eqb]; [|reflexivity].
    unfold createGenesisBlock, bind at 1, modifyThis at 1. rewrite save_returns. reflexivity.
  - rewrite (load_nothing _ _ E). unfold bind at 1, getThis. cbn [this chain List.length Nat.eqb].
    unfold createGenesisBlock, bind at 1, modifyThis at 1. rewrite save_returns. reflexivity.
Qed.

(** X2.  [new Blockchain()] always returns, with a chain that is not empty.  On
    a store without an item the chain is the genesis block alone and the
    queue is empty.  On a store with an item, the queue is the stored one;
    the chain is the stored one and the store is left as it is, unless the
    stored chain is empty: then the chain is a new genesis block. *)
Theorem newBlockchain_restores_or_starts (now : Z) (store : Storage) :
  exists w,
    newBlockchain now store = Returned tt w /\
    chain (this w) <> [] /\
    match vnc_blockchain store with
    | None =>
        chain (this w) = [genesisBlock now] /\ pendingTransactions (this w) = []
    | Some p =>
        pendingTransactions (this w) = persistedPending p /\
        match persistedChain p with
        | [] => chain (this w) = [genesisBlock now]
        | _ :: _ => chain (this w) = persistedChain p /\ localStorage w = store
        end
    end.
Proof.
  eexists. split; [apply newBlockchain_runs|].
  destruct (vnc_blockchain store) as [p|].
  - destruct (persistedChain p) as [|b c]; cbn; repeat split; discriminate.
  - cbn. repeat split. discriminate.
Qed.

(** ** What the ledger's operations keep *)

Lemma createTransaction_runs (tx : Transaction) (w : World) :
  createTransaction tx w =
  if accepted tx then
    Returned tt
      {| this := setPendingTransactions (pendingTransactions (this w) ++ [tx]) (this w);
         localStorage :=
           if setItemThrows (localStorage w) then localStorage w
           else {| vnc_blockchain :=
                     Some (stringifyParse (chain (this w)) (pendingTransactions (this w) ++ [tx]));
                   setItemThrows := false |} |}
  else Threw "Invalid transaction" w.
Proof.
  unfold createTransaction. rewrite guard_is_not_accepted.
  destruct (accepted tx); cbn [negb]; [|reflexivity].
  unfold bind at 1. unfold modifyThis at 1. rewrite save_returns. reflexivity.
Qed.

Lemma reset_runs (now : Z) (w : World) :
  reset now w =
  Returned tt
    {| this := {| chain := [genesisBlock now]; pendingTransactions := [];
                  difficulty := difficulty (this w); miningReward := miningReward (this w) |};
       localStorage :=
         if setItemThrows (localStorage w)
         then {| vnc_blockchain := None; setItemThrows := true |}
         else {| vnc_blockchain := Some (stringifyParse [genesisBlock now] []);
                 setItemThrows := false |} |}.
Proof.
  unfold reset, createGenesisBlock, save. run_method.
  destruct w as [self store]; cbn. destruct (setItemThrows store); reflexivity.
Qed.

Lemma linked_single (b : Block) : linked [b].
Proof.
  intros [|[|i]] current previous Hi Hc Hp; [lia | discriminate | discriminate].
Qed.

Lemma linked_nil : linked [].
Proof. intros [|i] current previous Hi Hc Hp; [lia | discriminate]. Qed.

Lemma linked_snoc (c : list Block) (tip b : Block) :
  linked c ->
  nth_error c (List.length c - 1) = Some tip ->
  hash b = sha256 (toHashString b) ->
  previousHash b = hash tip ->
  linked (c ++ [b]).
Proof.
  intros Hc Htip Hhash Hprev j current previous Hj Hcur Hpre.
  destruct (Nat.lt_trichotomy j (List.length c)) as [Hlt|[->|Hgt]].
  - rewrite nth_error_app1 in Hcur, Hpre by lia. now apply (Hc j).
  - rewrite nth_error_app2 in Hcur by lia. rewrite Nat.sub_diag in Hcur.
    injection Hcur as <-.
    rewrite nth_error_app1 in Hpre by lia. rewrite Htip in Hpre. injection Hpre as <-.
    now split.
  - assert (nth_error (c ++ [b]) j <> None) as Hsome by congruence.
    apply nth_error_Some in Hsome. rewrite length_app in Hsome. cbn in Hsome. lia.
Qed.

(** JSON writes a value and what it reads back from it the same way. *)
Lemma value_reread (v : jsval) : JSON.value (JSON.reread v) = JSON.value v.
Proof.
  destruct v as [| |b|x|s]; try reflexivity. cbn [JSON.reread].
  destruct (is_finite x) eqn:Efin; [|cbn; now rewrite Efin].
  destruct (is_zero x) eqn:Ezero; [|cbn; now rewrite Efin].
  cbn [JSON.value]. rewrite Efin. unfold JsNumber.toString. rewrite Ezero.
  unfold is_finite in Efin. apply negb_true_iff, orb_false_iff in Efin as (-> & _).
  reflexivity.
Qed.

Lemma stringify_reread (txs : list Transaction) :
  stringifyTransactions (map rereadTransaction txs) = stringifyTransactions txs.
Proof.
  unfold stringifyTransactions. rewrite map_map.
  rewrite (map_ext (fun tx => stringifyTransaction (rereadTransaction tx)) stringifyTransaction);
    [reflexivity|].
  intros tx. unfold stringifyTransaction, rereadTransaction, JSON.property. cbn [from to amount].
  now rewrite !value_reread.
Qed.

Lemma toHashString_reread (b : Block) : toHashString (rereadBlock b) = toHashString b.
Proof.
  unfold toHashString. cbn [rereadBlock previousHash timestamp transactions nonce].
  now rewrite stringify_reread.
Qed.

Lemma linked_reread (c : list Block) : linked c -> linked (map rereadBlock c).
Proof.
  intros Hc i current previous Hi Hcur Hpre.
  rewrite nth_error_map in Hcur, Hpre.
  destruct (nth_error c i) as [cur|] eqn:Ecur; [|discriminate].
  destruct (nth_error c (i - 1)) as [pre|] eqn:Epre; [|discriminate].
  injection Hcur as <-. injection Hpre as <-.
  rewrite toHashString_reread. exact (Hc i cur pre Hi Ecur Epre).
Qed.

Lemma reachable_sound (w : World) : reachable w -> sound w.
Proof.
  assert (forall now store,
            (forall p, vnc_blockchain store = Some p -> linked (persistedChain p)) ->
            forall w', newBlockchain now store = Returned tt w' -> sound w') as Hnew.
  { intros now store Hstore w' H. rewrite newBlockchain_runs in H. injection H as <-.
    destruct (vnc_blockchain store) as [p|] eqn:E.
    - specialize (Hstore p eq_refl).
      destruct (persistedChain p) as [|b c] eqn:Ec.
      + refine (conj _ (conj _ _)); cbn [this chain localStorage];
          [discriminate | apply linked_single |].
        intros q. destruct (setItemThrows store); cbn; [rewrite E|]; intros Hq;
          injection Hq as <-; [now rewrite Ec | apply linked_single].
      + refine (conj _ (conj _ _)); cbn [this chain localStorage];
          [discriminate | exact Hstore |].
        intros q Hq. rewrite E in Hq. injection Hq as <-. now rewrite Ec.
    - refine (conj _ (conj _ _)); cbn [this chain localStorage];
        [discriminate | apply linked_single |].
      intros q. destruct (setItemThrows store); cbn; [rewrite E; discriminate|].
      intros Hq. injection Hq as <-. apply linked_single. }
  induction 1 as [now throws w H | tx w w' _ (Hne & Hl & Hs) H
                  | fuel now miner w block w' _ (Hne & Hl & Hs) H
                  | d w _ IH | now w w' _ (Hne & Hl & Hs) H | now w w' _ (Hne & Hl & Hs) H].
  - apply (Hnew now {| vnc_blockchain := None; setItemThrows := throws |});
      [intros p Hp; discriminate Hp | exact H].
  - rewrite createTransaction_runs in H. destruct (accepted tx); [|discriminate].
    injection H as <-.
    refine (conj _ (conj _ _)); cbn [this chain localStorage setPendingTransactions];
      [exact Hne | exact Hl |].
    intros q. destruct (setItemThrows (localStorage w)); [apply Hs|].
    cbn. intros Hq. injection Hq as <-. now apply linked_reread.
  - rewrite minePendingTransactions_runs in H.
    destruct (latestBlock (this w)) as [tip|] eqn:Etip; [|discriminate].
    destruct (mineLoop _ _ _) as [b|] eqn:Eloop; [|discriminate].
    injection H as -> <-. apply mineLoop_sound in Eloop as (n & -> & _).
    assert (linked (chain (this w) ++ [sealed (setNonce n (candidate now (this w) tip 0))]))
      as Hl' by (apply (linked_snoc _ tip); [exact Hl | exact Etip | reflexivity | reflexivity]).
    refine (conj _ (conj _ _)); cbn [this chain localStorage afterMining].
    + intros E. apply app_eq_nil in E as (_ & E). discriminate.
    + exact Hl'.
    + intros q. destruct (setItemThrows (localStorage w)); [apply Hs|].
      cbn. intros Hq. injection Hq as <-. now apply linked_reread.
  - exact IH.
  - rewrite reset_runs in H. injection H as <-.
    refine (conj _ (conj _ _)); cbn [this chain localStorage];
      [discriminate | apply linked_single |].
    intros q. destruct (setItemThrows (localStorage w)); cbn; [discriminate|].
    intros Hq. injection Hq as <-. apply linked_single.
  - exact (Hnew now _ Hs w' H).
Qed.

Lemma firstMinedWorld_reachable : reachable firstMinedWorld.
Proof.
  apply (reach_mine 14 1700000001000 "alice" (withDifficulty 1 freshWorld) firstBlock).
  - apply reach_difficulty. apply (reach_first 1700000000000 false). reflexivity.
  - apply first_block_is_mined.
Qed.

(** X3.  On every reachable world the chain is not empty, so that
    [minePendingTransactions] never throws: its call returns or is pending. *)
Theorem mining_never_throws (w : World) :
  reachable w ->
  chain (this w) <> [] /\
  forall fuel now minerAddress message w',
    minePendingTransactions fuel now minerAddress w <> Threw message w'.
Proof.
  intros Hr. destruct (reachable_sound w Hr) as (Hne & _). split; [exact Hne|].
  intros fuel now miner message w'. rewrite minePendingTransactions_runs.
  unfold latestBlock. destruct (chain (this w)) as [|g rest] eqn:E; [contradiction|].
  destruct (nth_error (g :: rest) (List.length (g :: rest) - 1)) eqn:Etip.
  - destruct (mineLoop _ _ _); discriminate.
  - apply nth_error_None in Etip. cbn in Etip. lia.
Qed.

Lemma mining_never_throws_witness :
  chain (this firstMinedWorld) <> [] /\
  forall fuel now minerAddress message w',
    minePendingTransactions fuel now minerAddress firstMinedWorld <> Threw message w'.
Proof. apply (mining_never_throws firstMinedWorld). apply firstMinedWorld_reachable. Defined.

(** ** The store and the fingerprints *)

Lemma isChainValidLoop_reread (self : Blockchain) :
  isChainValidLoop (setChain (map rereadBlock (chain self)) self) 1
                   (List.length (map rereadBlock (chain self)) - 1)
  = isChainValidLoop self 1 (List.length (chain self) - 1).
Proof.
  apply eq_true_iff_eq.
  rewrite (isChainValid_spec self), (isChainValid_spec (setChain _ self)).
  cbn [chain setChain]. split; intros H i current previous Hi Hc Hp.
  - specialize (H i (rereadBlock current) (rereadBlock previous) Hi).
    rewrite !nth_error_map, Hc, Hp in H. specialize (H eq_refl eq_refl).
    unfold linkChecks in *. rewrite toHashString_reread in H. exact H.
  - rewrite nth_error_map in Hc, Hp.
    destruct (nth_error (chain self) i) as [cur|] eqn:Ecur; [|discriminate].
    destruct (nth_error (chain self) (i - 1)) as [pre|] eqn:Epre; [|discriminate].
    injection Hc as <-. injection Hp as <-.
    specialize (H i cur pre Hi Ecur Epre).
    unfold linkChecks in *. rewrite toHashString_reread. exact H.
Qed.

(** X5.  What JSON changes in a transaction (NaN and the infinities to [null],
    -0 to 0) leaves every fingerprint as it is.  So when [setItem] succeeds,
    the chain that [load()] brings back after [save()] has the fingerprints
    and hashes of the saved one, and [isChainValid()] gives on it, under
    the same difficulty, the verdict it gave before. *)
Theorem validity_survives_the_store (w : World) (other : Blockchain) :
  setItemThrows (localStorage w) = false ->
  difficulty other = difficulty (this w) ->
  exists w1 w2 verdict,
    save w = Returned tt w1 /\
    load {| this := other; localStorage := localStorage w1 |} = Returned tt w2 /\
    map toHashString (chain (this w2)) = map toHashString (chain (this w)) /\
    map hash (chain (this w2)) = map hash (chain (this w)) /\
    isChainValid w = Returned verdict w /\
    isChainValid w2 = Returned verdict w2.
Proof.
  intros Hok Hd. do 3 eexists. rewrite save_returns, Hok. cbn [localStorage].
  split; [reflexivity|]. split; [apply load_item; reflexivity|].
  cbn [this chain stringifyParse persistedChain].
  split; [rewrite map_map; apply map_ext; intros b; apply toHashString_reread|].
  split; [rewrite map_map; apply map_ext; intros b; reflexivity|].
  split; [apply isChainValid_runs|].
  rewrite isChainValid_runs. cbn [this chain]. f_equal.
  rewrite <- (isChainValidLoop_reread (this w)).
  destruct (this w) as [c p d r]. destruct other as [c' p' d' r']. cbn in Hd. subst d'.
  cbn [chain setChain difficulty pendingTransactions miningReward].
  generalize (List.length (map rereadBlock c) - 1)%nat. intros n.
  generalize 1%nat. revert n.
  induction n as [|n IH]; intros i; [reflexivity|].
  cbn [isChainValidLoop chain difficulty]. rewrite IH. reflexivity.
Qed.

Lemma validity_survives_the_store_witness :
  exists w1 w2 verdict,
    save store_witness_world = Returned tt w1 /\
    load {| this := setDifficulty 1 freshLedger; localStorage := localStorage w1 |}
    = Returned tt w2 /\
    map toHashString (chain (this w2)) = map toHashString (chain (this store_witness_world)) /\
    map hash (chain (this w2)) = map hash (chain (this store_witness_world)) /\
    isChainValid store_witness_world = Returned verdict store_witness_world /\
    isChainValid w2 = Returned verdict w2.
Proof.
  apply (validity_survives_the_store store_witness_world (setDifficulty 1 freshLedger));
    reflexivity.
Defined.

(** ** Balances and the operations *)

Lemma balance_snoc (address : jsval) (self self' : Blockchain) (tx : Transaction) :
  allTransactions self' = (allTransactions self ++ [tx])%list ->
  getBalanceOfAddress address self'
  = applyTransaction address (getBalanceOfAddress address self) tx.
Proof.
  intros H. rewrite !getBalanceOfAddress_flat, H, fold_left_app. reflexivity.
Qed.

Lemma mined_block_fields (fuel : nat) (now : Z) (minerAddress : string) (w w' : World)
      (block : Block) :
  minePendingTransactions fuel now minerAddress w = Returned block w' ->
  exists tip,
    latestBlock (this w) = Some tip /\
    w' = afterMining minerAddress block w /\
    transactions block = pendingTransactions (this w) /\
    previousHash block = hash tip /\
    timestamp block = now /\
    hash block = sha256 (toHashString block) /\
    JsString.startsWith (target (this w)) (hash block) = true.
Proof.
  rewrite minePendingTransactions_runs.
  destruct (latestBlock (this w)) as [tip|]; [|discriminate].
  destruct (mineLoop _ _ _) as [b|] eqn:Hloop; [|discriminate].
  intros H. injection H as -> <-. exists tip.
  apply mineLoop_sound in Hloop as (n & -> & Hs).
  repeat split; exact Hs.
Qed.

Lemma allTransactions_afterMining (minerAddress : string) (block : Block) (w : World) :
  transactions block = pendingTransactions (this w) ->
  allTransactions (this (afterMining minerAddress block w))
  = (allTransactions (this w) ++ [rewardTransaction minerAddress (miningReward (this w))])%list.
Proof.
  intros H. unfold allTransactions. cbn [afterMining this chain pendingTransactions].
  rewrite flat_map_app. cbn [flat_map]. rewrite H, app_nil_r. reflexivity.
Qed.

(** X6.  An address that no transaction of the ledger names, in a block or in
    the queue, has the balance 0: [getBalanceOfAddress] knows no unknown
    address. *)
Theorem unknown_address_has_balance_zero (address : jsval) (self : Blockchain) :
  (forall tx, In tx (allTransactions self) ->
     strictEq (from tx) address = false /\ strictEq (to tx) address = false) ->
  getBalanceOfAddress address self = Some 0%float.
Proof.
  rewrite getBalanceOfAddress_flat. generalize (allTransactions self). intros txs.
  induction txs as [|tx rest IH]; intros H; [reflexivity|].
  cbn [fold_left]. unfold applyTransaction at 2.
  destruct (H tx (or_introl eq_refl)) as (-> & ->).
  apply IH. intros tx' Hin. apply H. now right.
Qed.

Lemma unknown_address_has_balance_zero_witness :
  getBalanceOfAddress (VString "carol") (this firstMinedWorld) = Some 0%float.
Proof.
  apply (unknown_address_has_balance_zero (VString "carol") (this firstMinedWorld)).
  intros tx [<-|[<-|[]]]; split; reflexivity.
Defined.

(** X7.  Mining changes the balances by the reward transaction and by nothing
    else: after a call of [minePendingTransactions] has returned, every
    balance is the one before with the reward transaction applied to it (the
    queued transactions counted before and count the same in the block).
    So the balance of an address other than 'network' and the miner's is
    left as it was. *)
Theorem mining_pays_only_the_reward
  (fuel : nat) (now : Z) (minerAddress : string) (w w' : World) (block : Block) :
  minePendingTransactions fuel now minerAddress w = Returned block w' ->
  (forall address,
     getBalanceOfAddress address (this w')
     = applyTransaction address (getBalanceOfAddress address (this w))
         (rewardTransaction minerAddress (miningReward (this w)))) /\
  (forall address,
     address <> VString "network" -> address <> VString minerAddress ->
     getBalanceOfAddress address (this w') = getBalanceOfAddress address (this w)).
Proof.
  intros H. apply mined_block_fields in H as (tip & _ & -> & Htx & _).
  assert (forall address,
     getBalanceOfAddress address (this (afterMining minerAddress block w))
     = applyTransaction address (getBalanceOfAddress address (this w))
         (rewardTransaction minerAddress (miningReward (this w)))) as Hall.
  { intros address. apply balance_snoc. now apply allTransactions_afterMining. }
  split; [exact Hall|].
  intros address Hn Hm. rewrite Hall. unfold applyTransaction.
  cbn [rewardTransaction from to amount].
  destruct (strictEq (VString "network") address) eqn:E1.
  { apply strictEq_string in E1. congruence. }
  destruct (strictEq (VString minerAddress) address) eqn:E2.
  { apply strictEq_string in E2. congruence. }
  reflexivity.
Qed.

Lemma mining_pays_only_the_reward_witness :
  (forall address,
     getBalanceOfAddress address (this firstMinedWorld)
     = applyTransaction address (getBalanceOfAddress address (this (withDifficulty 1 freshWorld)))
         (rewardTransaction "alice" (miningReward (this (withDifficulty 1 freshWorld))))) /\
  (forall address,
     address <> VString "network" -> address <> VString "alice" ->
     getBalanceOfAddress address (this firstMinedWorld)
     = getBalanceOfAddress address (this (withDifficulty 1 freshWorld))).
Proof.
  apply (mining_pays_only_the_reward 14 1700000001000 "alice" (withDifficulty 1 freshWorld)
           firstMinedWorld firstBlock).
  vm_compute. reflexivity.
Defined.

(** X8.  A submitted transaction changes the balances by itself alone, and at
    once, while it is still in the queue: after [createTransaction(tx)] has
    returned, every balance is the one before with [tx] applied to it, and
    the balance of an address that is neither its sender nor its recipient
    is left as it was. *)
Theorem createTransaction_moves_the_amount (tx : Transaction) (w w' : World) :
  createTransaction tx w = Returned tt w' ->
  (forall address,
     getBalanceOfAddress address (this w')
     = applyTransaction address (getBalanceOfAddress address (this w)) tx) /\
  (forall address,
     strictEq (from tx) address = false -> strictEq (to tx) address = false ->
     getBalanceOfAddress address (this w') = getBalanceOfAddress address (this w)).
Proof.
  rewrite createTransaction_runs. destruct (accepted tx); [|discriminate].
  intros H. injection H as <-.
  assert (forall address,
     getBalanceOfAddress address
       (setPendingTransactions (pendingTransactions (this w) ++ [tx]) (this w))
     = applyTransaction address (getBalanceOfAddress address (this w)) tx) as Hall.
  { intros address. apply balance_snoc. unfold allTransactions.
    cbn [setPendingTransactions chain pendingTransactions]. now rewrite app_assoc. }
  split; [exact Hall|].
  intros address Hf Ht. cbn [this]. rewrite Hall. unfold applyTransaction.
  now rewrite Hf, Ht.
Qed.

Lemma createTransaction_moves_the_amount_witness :
  exists w',
    createTransaction {| from := VString "a"; to := VString "b"; amount := VNumber 10 |}
                      freshWorld = Returned tt w' /\
    getBalanceOfAddress (VString "a") (this w') = Some (-10)%float /\
    getBalanceOfAddress (VString "b") (this w') = Some 10%float /\
    getBalanceOfAddress (VString "network") (this w') = Some 0%float.
Proof.
  eexists. split; [reflexivity|].
  pose proof (createTransaction_moves_the_amount
                {| from := VString "a"; to := VString "b"; amount := VNumber 10 |}
                freshWorld _ eq_refl) as (Hall & Hrest).
  split; [|split].
  - rewrite Hall. reflexivity.
  - rewrite Hall. reflexivity.
  - rewrite Hrest; reflexivity.
Defined.

(** ** The difficulty and the verdict *)

Lemma startsWith_repeat_le (c : ascii) (d D : nat) (s : string) :
  (d <= D)%nat ->
  JsString.startsWith (JsString.repeat c D) s = true ->
  JsString.startsWith (JsString.repeat c d) s = true.
Proof.
  revert D s. induction d as [|d IH]; intros D s Hle H; [reflexivity|].
  destruct D as [|D]; [lia|]. cbn [JsString.repeat JsString.startsWith] in *.
  destruct s as [|b s]; [discriminate|].
  apply andb_true_iff in H as (Hc & H). rewrite Hc. cbn [andb].
  apply (IH D); [lia | exact H].
Qed.

(** X9.  A chain that passes [isChainValid()] passes it under every lower
    difficulty as well: lowering [difficulty] never invalidates a chain
    (raising it can). *)
Theorem lower_difficulty_keeps_validity (d : N) (w : World) :
  (d <= difficulty (this w))%N ->
  isChainValid w = Returned true w ->
  isChainValid (withDifficulty d w) = Returned true (withDifficulty d w).
Proof.
  intros Hd H. rewrite isChainValid_runs in *. injection H as H. f_equal.
  rewrite isChainValid_spec in H. apply isChainValid_spec.
  cbn [withDifficulty this setDifficulty chain].
  intros j current previous Hj Hc Hp.
  destruct (H j current previous Hj Hc Hp) as (H1 & H2 & H3).
  repeat split; [exact H1 | exact H2 |].
  change (difficulty (setDifficulty d (this w))) with d.
  apply (startsWith_repeat_le _ _ (N.to_nat (difficulty (this w)))); [lia | exact H3].
Qed.

Lemma lower_difficulty_keeps_validity_witness :
  isChainValid (withDifficulty 0 firstMinedWorld) = Returned true (withDifficulty 0 firstMinedWorld).
Proof.
  apply (lower_difficulty_keeps_validity 0 firstMinedWorld).
  - vm_compute. discriminate.
  - vm_compute. reflexivity.
Defined.

(** ** Altering a block *)

Lemma nth_error_replaceBlock (i j : nat) (block : Block) (c : list Block) :
  (i < List.length c)%nat ->
  nth_error (replaceBlock i block c) j
  = if (j =? i)%nat then Some block else nth_error c j.
Proof.
  intros Hi. unfold replaceBlock.
  assert (List.length (firstn i c) = i) as Hlen by (rewrite length_firstn; lia).
  destruct (Nat.eqb_spec j i) as [->|Hne].
  - rewrite nth_error_app2; rewrite Hlen; [|lia]. now rewrite Nat.sub_diag.
  - destruct (Nat.lt_ge_cases j i) as [Hlt|Hge].
    + rewrite nth_error_app1; [|lia].
      rewrite <- (firstn_skipn i c) at 2. rewrite nth_error_app1; [reflexivity | lia].
    + rewrite nth_error_app2; rewrite Hlen; [|lia].
      destruct (j - i)%nat as [|k] eqn:E; [lia|]. cbn [nth_error].
      rewrite nth_error_skipn. f_equal. lia.
Qed.

(** X10.  Altering a block that is not the last one cannot go unnoticed without a
    collision of SHA-256.  If the chain passes [isChainValid()], and still
    passes it after the block at an index [i] (at least 1, and not the last)
    has been replaced, then the new block has the previousHash and the hash
    of the old one, and the fingerprints of the two have the same digest. *)
Theorem altered_block_needs_a_collision (i : nat) (old new : Block) (w : World) :
  (1 <= i)%nat ->
  (S i < List.length (chain (this w)))%nat ->
  nth_error (chain (this w)) i = Some old ->
  isChainValid w = Returned true w ->
  isChainValid (withChain (replaceBlock i new (chain (this w))) w)
  = Returned true (withChain (replaceBlock i new (chain (this w))) w) ->
  previousHash new = previousHash old /\
  hash new = hash old /\
  sha256 (toHashString new) = sha256 (toHashString old).
Proof.
  intros Hi Hlen Hold H H'.
  rewrite isChainValid_runs in H, H'. injection H as H. injection H' as H'.
  rewrite isChainValid_spec in H, H'. cbn [withChain this setChain chain] in H'.
  assert (i < List.length (chain (this w)))%nat as Hlt by lia.
  destruct (nth_error (chain (this w)) (i - 1)) as [previous|] eqn:Eprev;
    [|apply nth_error_None in Eprev; lia].
  destruct (nth_error (chain (this w)) (S i)) as [next|] eqn:Enext;
    [|apply nth_error_None in Enext; lia].
  destruct (H i old previous Hi Hold Eprev) as (Ho1 & Ho2 & _).
  assert (nth_error (chain (this w)) (S i - 1) = Some old) as Hold'
      by (now replace (S i - 1)%nat with i by lia).
  destruct (H (S i) next old ltac:(lia) Enext Hold') as (_ & Hn2 & _).
  destruct (H' i new previous Hi) as (Hw1 & Hw2 & _).
  { rewrite nth_error_replaceBlock, Nat.eqb_refl; [reflexivity | exact Hlt]. }
  { rewrite nth_error_replaceBlock; [|exact Hlt].
    destruct (Nat.eqb_spec (i - 1) i); [lia | exact Eprev]. }
  destruct (H' (S i) next new ltac:(lia)) as (_ & Hx2 & _).
  { rewrite nth_error_replaceBlock; [|exact Hlt].
    destruct (Nat.eqb_spec (S i) i); [lia | exact Enext]. }
  { replace (S i - 1)%nat with i by lia.
    rewrite nth_error_replaceBlock, Nat.eqb_refl; [reflexivity | exact Hlt]. }
  assert (hash new = hash old) as Hh by congruence.
  repeat split; congruence.
Qed.

Example infiniteWorld_is_mined :
  match createTransaction
          {| from := VString "a"; to := VString "b"; amount := VNumber infinity |}
          (withDifficulty 1 freshWorld) with
  | Returned _ w1 =>
      match minePendingTransactions 5 1700000001000 "alice" w1 with
      | Returned block1 w2 =>
          block1 = infiniteBlock /\
          minePendingTransactions 7 1700000002000 "bob" w2
          = Returned blockAfterInfinite infiniteWorld
      | _ => False
      end
  | _ => False
  end.
Proof. vm_compute. split; reflexivity. Qed.

(** The block that holds the infinite amount is altered (Infinity becomes
    -Infinity) and the chain still passes: the two blocks have the same
    fingerprint, since JSON writes both amounts as [null]. *)
Lemma altered_block_needs_a_collision_witness :
  alteredBlock <> infiniteBlock /\
  nth_error (chain (this infiniteWorld)) 1 = Some infiniteBlock /\
  isChainValid (withChain (replaceBlock 1 alteredBlock (chain (this infiniteWorld))) infiniteWorld)
  = Returned true (withChain (replaceBlock 1 alteredBlock (chain (this infiniteWorld)))
                             infiniteWorld) /\
  previousHash alteredBlock = previousHash infiniteBlock /\
  hash alteredBlock = hash infiniteBlock /\
  sha256 (toHashString alteredBlock) = sha256 (toHashString infiniteBlock).
Proof.
  split.
  { intros H.
    apply (f_equal (fun b => match map amount (transactions b) with
                             | [VNumber x] => (x <? 0)%float
                             | _ => false
                             end)) in H.
    vm_compute in H. discriminate H. }
  split; [reflexivity|]. split; [vm_compute; reflexivity|].
  apply (altered_block_needs_a_collision 1 infiniteBlock alteredBlock infiniteWorld).
  - lia.
  - vm_compute. lia.
  - reflexivity.
  - vm_compute. reflexivity.
  - vm_compute. reflexivity.
Defined.

(** ** A store that refuses *)



(** ** Mining twice *)

Lemma latestBlock_snoc (c : list Block) (b : Block) (self : Blockchain) :
  chain self = (c ++ [b])%list -> latestBlock self = Some b.
Proof.
  intros H. unfold latestBlock. rewrite H, length_app. cbn [List.length].
  rewrite nth_error_app2; [|lia].
  replace (List.length c + 1 - 1 - List.length c)%nat with 0%nat by lia. reflexivity.
Qed.

(** X12.  Two calls of [minePendingTransactions] in a row append two blocks that
    are linked: the second has the hash of the first as its previousHash.
    The first block holds the queue as it was; the second holds the reward
    of the first call and nothing else, so that a miner's reward enters the
    chain only with the next block; the queue is left with the reward of the
    second call. *)
Theorem two_minings_link
  (fuel1 fuel2 : nat) (now1 now2 : Z) (miner1 miner2 : string)
  (w w1 w2 : World) (block1 block2 : Block) :
  minePendingTransactions fuel1 now1 miner1 w = Returned block1 w1 ->
  minePendingTransactions fuel2 now2 miner2 w1 = Returned block2 w2 ->
  chain (this w2) = (chain (this w) ++ [block1; block2])%list /\
  previousHash block2 = hash block1 /\
  transactions block1 = pendingTransactions (this w) /\
  transactions block2 = [rewardTransaction miner1 (miningReward (this w))] /\
  pendingTransactions (this w2) = [rewardTransaction miner2 (miningReward (this w))].
Proof.
  intros H1 H2.
  apply mined_block_fields in H1 as (tip1 & _ & -> & Htx1 & _).
  apply mined_block_fields in H2 as (tip2 & Htip2 & -> & Htx2 & Hprev2 & _).
  rewrite (latestBlock_snoc (chain (this w)) block1) in Htip2 by reflexivity.
  injection Htip2 as <-.
  cbn [afterMining this chain pendingTransactions miningReward] in *.
  rewrite <- app_assoc. repeat split; assumption.
Qed.

Lemma two_minings_link_witness :
  chain (this secondMinedWorld)
  = (chain (this (withDifficulty 1 freshWorld)) ++ [firstBlock; secondBlock])%list /\
  previousHash secondBlock = hash firstBlock /\
  transactions firstBlock = pendingTransactions (this (withDifficulty 1 freshWorld)) /\
  transactions secondBlock
  = [rewardTransaction "alice" (miningReward (this (withDifficulty 1 freshWorld)))] /\
  pendingTransactions (this secondMinedWorld)
  = [rewardTransaction "bob" (miningReward (this (withDifficulty 1 freshWorld)))].
Proof.
  apply (two_minings_link 14 6 1700000001000 1700000002000 "alice" "bob"
           (withDifficulty 1 freshWorld) firstMinedWorld secondMinedWorld
           firstBlock secondBlock).
  - vm_compute. reflexivity.
  - vm_compute. reflexivity.
Defined.

(** ** The handlers of the page *)

Lemma accepted_clickTransaction (sender recipient : string) (parsed : float) :
  accepted (clickTransaction sender recipient parsed) = true.
Proof.
  unfold accepted, clickTransaction, orElse. cbn [from to amount truthy].
  assert (forall s, truthy (if negb (s =? "") then VString s else VString "anonymous") = true)
    as Hparty.
  { intros s. destruct (s =? "") eqn:E; cbn; [reflexivity | now rewrite E]. }
  rewrite !Hparty. cbn [andb].
  destruct (is_zero parsed || is_nan parsed) eqn:E; cbn [negb].
  - reflexivity.
  - apply orb_false_iff in E as (_ & ->). reflexivity.
Qed.

(** X13.  The click on [btn-add-tx] never alerts: whatever the three inputs hold,
    the transaction it builds passes the guard of [createTransaction] and is
    queued.  An empty sender or recipient is replaced by 'anonymous', and an
    amount that [parseFloat] reads as NaN or as zero by 0; every other amount
    is taken as it is, negative and infinite ones as well. *)
Theorem add_transaction_click_never_alerts (sender recipient : string) (parsed : float) (w : World) :
  exists w',
    addTransactionClick sender recipient parsed w = (w', None) /\
    chain (this w') = chain (this w) /\
    pendingTransactions (this w')
    = (pendingTransactions (this w) ++
       [ {| from := VString (if sender =? "" then "anonymous" else sender);
            to := VString (if recipient =? "" then "anonymous" else recipient);
            amount := VNumber (if is_zero parsed || is_nan parsed then 0 else parsed) |} ])%list.
Proof.
  unfold addTransactionClick. rewrite createTransaction_runs, accepted_clickTransaction.
  eexists. split; [reflexivity|]. split; [reflexivity|].
  cbn [this setPendingTransactions pendingTransactions]. do 2 f_equal.
  unfold clickTransaction, orElse. cbn [truthy].
  destruct (sender =? ""), (recipient =? ""), (is_zero parsed || is_nan parsed); reflexivity.
Qed.


(** X14.  The difficulty the click on [btn-mine] sets is an integer from 1 to 6,
    whatever [parseInt] made of the input: an integer from 1 to 6 is taken
    as it is, NaN and 0 give 3, a negative number gives 1 and a number above
    6 gives 6. *)
Theorem clampDifficulty_range (parsed : jsInteger) :
  exists d : Z,
    clampDifficulty parsed = JInt d /\
    (1 <= d <= 6)%Z /\
    d = match parsed with
        | JNaN => 3
        | JInt z => if (z =? 0)%Z then 3 else if (z <? 1)%Z then 1 else if (6 <? z)%Z then 6 else z
        | JInfinity negative => if negative then 1 else 6
        end%Z.
Proof.
  destruct parsed as [|z|[|]].
  - exists 3%Z. repeat split; lia.
  - destruct (Z.eqb_spec z 0) as [->|Hz].
    + exists 3%Z. repeat split; lia.
    + unfold clampDifficulty.
      assert (orThree (JInt z) = JInt z) as -> by (destruct z; [lia | reflexivity | reflexivity]).
      cbn [Math_min jsInteger_le].
      destruct (Z.leb_spec 6 z) as [H6|H6].
      * exists 6%Z. cbn. destruct (Z.ltb_spec z 1); [lia|].
        destruct (Z.ltb_spec 6 z).
        -- repeat split; lia.
        -- repeat split; lia.
      * cbn [Math_max jsInteger_le].
        destruct (Z.leb_spec 1 z) as [H1|H1].
        -- exists z. destruct (Z.ltb_spec z 1); [lia|]. destruct (Z.ltb_spec 6 z); [lia|].
           repeat split; lia.
        -- exists 1%Z. destruct (Z.ltb_spec z 1); [|lia]. repeat split; lia.
  - exists 1%Z. repeat split; lia.
  - exists 6%Z. repeat split; lia.
Qed.




(** *** The addresses [renderChain] lists *)

Lemma addAddress_listed (l : list jsval) (a b : jsval) :
  existsb (sameValueZero b) l = true -> existsb (sameValueZero b) (addAddress l a) = true.
Proof.
  intros H. unfold addAddress. destruct (existsb (sameValueZero a) l); [exact H|].
  rewrite existsb_app, H. reflexivity.
Qed.

Lemma addAddress_lists (l : list jsval) (a : jsval) :
  existsb (sameValueZero a) (addAddress l a) = true.
Proof.
  unfold addAddress. destruct (existsb (sameValueZero a) l) eqn:E; [exact E|].
  rewrite existsb_app. cbn [existsb]. rewrite sameValueZero_setKey, orb_true_r. reflexivity.
Qed.

(** A zero, of either sign, compares with every number as +0 does. *)
Lemma eqb_zero_l (x y : float) : is_zero x = true -> (x =? y)%float = (0 =? y)%float.
Proof.
  unfold is_zero. rewrite !eqb_spec. change (Prim2SF zero) with (S754_zero false).
  destruct (Prim2SF x) as [s|s| |s m e]; cbn; try discriminate; try (destruct s; discriminate).
  intros _. now destruct (Prim2SF y) as [t|t| |t m e].
Qed.

Lemma is_zero_not_nan (x : float) : is_zero x = true -> is_nan x = false.
Proof.
  unfold is_zero, is_nan. rewrite !eqb_spec. change (Prim2SF zero) with (S754_zero false).
  destruct (Prim2SF x) as [s|s| |s m e]; cbn; try discriminate; try (destruct s; discriminate).
  reflexivity.
Qed.

Lemma sameValueZero_of_setKey (a c : jsval) : sameValueZero (setKey a) c = sameValueZero a c.
Proof.
  destruct a as [| |b|x|s]; try reflexivity.
  unfold setKey. destruct (is_zero x) eqn:E; [|reflexivity].
  destruct c as [| |b|y|s]; try reflexivity.
  cbn [sameValueZero]. rewrite (eqb_zero_l x y E), (is_zero_not_nan x E). reflexivity.
Qed.

Lemma existsb_pointwise {A : Type} (f g : A -> bool) (l : list A) :
  (forall x, f x = g x) -> existsb f l = existsb g l.
Proof. intros H. induction l as [|x l IH]; cbn; [reflexivity | now rewrite H, IH]. Qed.

Lemma addAddress_origin (l : list jsval) (a b : jsval) :
  In b (addAddress l a) -> In b l \/ b = setKey a.
Proof.
  unfold addAddress. destruct (existsb (sameValueZero a) l); [now left|].
  intros H. apply in_app_or in H as [H|[<-|[]]]; [now left | now right].
Qed.

Lemma addAddress_fresh (l : list jsval) (a : jsval) :
  (forall i b, nth_error l i = Some b -> existsb (sameValueZero b) (firstn i l) = false) ->
  forall i b, nth_error (addAddress l a) i = Some b ->
              existsb (sameValueZero b) (firstn i (addAddress l a)) = false.
Proof.
  intros H. unfold addAddress. destruct (existsb (sameValueZero a) l) eqn:E; [exact H|].
  intros i b Hb. rewrite firstn_app.
  destruct (Nat.lt_ge_cases i (List.length l)) as [Hlt|Hge].
  - rewrite nth_error_app1 in Hb by exact Hlt.
    replace (i - List.length l)%nat with 0%nat by lia. cbn [firstn]. rewrite app_nil_r.
    now apply H.
  - rewrite nth_error_app2 in Hb by exact Hge.
    destruct (i - List.length l)%nat as [|k] eqn:Ek.
    + cbn in Hb. injection Hb as <-. cbn [firstn]. rewrite app_nil_r.
      rewrite firstn_all2 by lia.
      rewrite (existsb_pointwise _ _ l (sameValueZero_of_setKey a)). exact E.
    + cbn in Hb. destruct k; discriminate.
Qed.

Lemma addresses_fold (txs : list Transaction) :
  forall l,
    (forall i b, nth_error l i = Some b -> existsb (sameValueZero b) (firstn i l) = false) ->
    let listed := fold_left addParties txs l in
    (forall b, existsb (sameValueZero b) l = true -> existsb (sameValueZero b) listed = true) /\
    (forall tx, In tx txs ->
       existsb (sameValueZero (from tx)) listed = true /\
       existsb (sameValueZero (to tx)) listed = true) /\
    (forall b, In b listed ->
       In b l \/ exists tx, In tx txs /\ (b = setKey (from tx) \/ b = setKey (to tx))) /\
    (forall i b, nth_error listed i = Some b ->
       existsb (sameValueZero b) (firstn i listed) = false).
Proof.
  induction txs as [|tx rest IH]; intros l Hl; cbv zeta; cbn [fold_left].
  - repeat split; try tauto; contradiction.
  - assert (forall i b, nth_error (addParties l tx) i = Some b ->
              existsb (sameValueZero b) (firstn i (addParties l tx)) = false) as Hl'.
    { unfold addParties. now do 2 apply addAddress_fresh. }
    destruct (IH _ Hl') as (Hkeep & Hin & Horigin & Hfresh). cbv zeta in *.
    split; [|split; [|split]].
    + intros b Hb. apply Hkeep. unfold addParties. now do 2 apply addAddress_listed.
    + intros tx' [<-|Hrest]; [|now apply Hin]. split; apply Hkeep; unfold addParties.
      * apply addAddress_listed, addAddress_lists.
      * apply addAddress_lists.
    + intros b Hb. apply Horigin in Hb as [Hb|(tx' & Htx' & Hb)].
      * unfold addParties in Hb. apply addAddress_origin in Hb as [Hb| ->].
        -- apply addAddress_origin in Hb as [Hb| ->]; [now left|].
           right. exists tx. split; [now left | now left].
        -- right. exists tx. split; [now left | now right].
      * right. exists tx'. split; [now right | exact Hb].
    + exact Hfresh.
Qed.

(** The [Set] keeps -0 as +0, and lists it once. *)
Example minus_zero_is_kept_as_zero :
  addAddress [] (VNumber (-0)) = [VNumber 0] /\
  addAddress [VNumber 0] (VNumber (-0)) = [VNumber 0].
Proof. split; reflexivity. Qed.

(** X16.  The addresses under which [renderChain] shows balances are the parties
    of the ledger's transactions, each one once: the [from] and the [to] of
    every transaction, in a block or in the queue, is listed (as a [Set]
    holds it: up to SameValueZero); every listed address is the [from] or
    the [to] of a transaction, as the [Set] keeps it (-0 as +0); and none is
    listed again after an address equal to it. *)
Theorem addresses_are_the_parties (self : Blockchain) :
  (forall tx, In tx (allTransactions self) ->
     existsb (sameValueZero (from tx)) (addresses self) = true /\
     existsb (sameValueZero (to tx)) (addresses self) = true) /\
  (forall a, In a (addresses self) ->
     exists tx, In tx (allTransactions self) /\
                (a = setKey (from tx) \/ a = setKey (to tx))) /\
  (forall i a, nth_error (addresses self) i = Some a ->
     existsb (sameValueZero a) (firstn i (addresses self)) = false).
Proof.
  rewrite addresses_flat.
  destruct (addresses_fold (allTransactions self) []) as (_ & Hin & Horigin & Hfresh).
  { intros [|i] b H; discriminate H. }
  cbv zeta in *. split; [exact Hin|]. split; [|exact Hfresh].
  intros a Ha. destruct (Horigin a Ha) as [[]|H]. exact H.
Qed.

(** ** The testimonial slider *)

Lemma adjust_length {A : Type} (f : A -> A) (i : nat) (l : list A) :
  List.length (Slider.adjust f i l) = List.length l.
Proof.
  revert i. induction l as [|x l IH]; intros [|i]; cbn; try reflexivity. now rewrite IH.
Qed.

Lemma nth_error_adjust {A : Type} (f : A -> A) (i j : nat) (l : list A) :
  nth_error (Slider.adjust f i l) j
  = if (j =? i)%nat then option_map f (nth_error l j) else nth_error l j.
Proof.
  revert i j. induction l as [|x l IH]; intros [|i] [|j]; cbn; try reflexivity.
  - now destruct (j =? i)%nat.
  - apply IH.
Qed.

Lemma map_adjust_map {A : Type} (f g : A -> A) (i : nat) (l : list A) :
  (forall x, f (g (f x)) = f x) -> (forall x, f (f x) = f x) ->
  map f (Slider.adjust g i (map f l)) = map f l.
Proof.
  intros Hg Hf. revert i. induction l as [|x l IH]; intros [|i]; cbn; try reflexivity.
  - now rewrite Hg, map_map, (map_ext _ _ (fun y => Hf y)).
  - now rewrite Hf, IH.
Qed.

Lemma classRemove_removes (cl : list string) :
  existsb (String.eqb "active") (Slider.classRemove "active" cl) = false.
Proof.
  unfold Slider.classRemove. induction cl as [|t cl IH]; [reflexivity|].
  cbn [filter]. destruct (t =? "active") eqn:E; cbn [negb]; [exact IH|].
  cbn [existsb]. now rewrite String.eqb_sym, E, IH.
Qed.

Lemma classAdd_adds (cl : list string) :
  existsb (String.eqb "active") (Slider.classAdd "active" cl) = true.
Proof.
  unfold Slider.classAdd. destruct (existsb (String.eqb "active") cl) eqn:E; [exact E|].
  rewrite existsb_app. cbn. apply orb_true_r.
Qed.

Lemma classRemove_twice (cl : list string) :
  Slider.classRemove "active" (Slider.classRemove "active" cl) = Slider.classRemove "active" cl.
Proof.
  unfold Slider.classRemove. induction cl as [|t cl IH]; [reflexivity|].
  cbn [filter]. destruct (negb (t =? "active")) eqn:E; [|exact IH].
  cbn [filter]. now rewrite E, IH.
Qed.

Lemma classRemove_classAdd (cl : list string) :
  Slider.classRemove "active" (Slider.classAdd "active" (Slider.classRemove "active" cl))
  = Slider.classRemove "active" cl.
Proof.
  unfold Slider.classAdd. rewrite classRemove_removes.
  unfold Slider.classRemove at 1. rewrite filter_app. cbn [filter String.eqb Ascii.eqb negb].
  cbn. rewrite app_nil_r. apply classRemove_twice.
Qed.

(** [showSlide(index)] at an index of the list. *)
Lemma showSlide_shows (z : Z) (s : Slider.state) :
  (0 <= z < Z.of_nat (List.length (Slider.slides s)))%Z ->
  exists s',
    Slider.showSlide (Slider.Int z) s = Slider.Done s' /\
    Slider.currentSlide s' = Slider.currentSlide s /\
    List.length (Slider.slides s') = List.length (Slider.slides s) /\
    (forall i, Slider.active s' i = (i =? Z.to_nat z)%nat) /\
    map (Slider.classRemove "active") (Slider.slides s')
    = map (Slider.classRemove "active") (Slider.slides s).
Proof.
  intros Hz. unfold Slider.showSlide. rewrite length_map.
  destruct (Z.leb_spec 0 z); [|lia].
  destruct (Z.ltb_spec z (Z.of_nat (List.length (Slider.slides s)))); [|lia].
  cbn [andb]. eexists. split; [reflexivity|].
  cbn [Slider.currentSlide Slider.slides]. split; [reflexivity|].
  split; [now rewrite adjust_length, length_map|]. split.
  - intros i. unfold Slider.active. cbn [Slider.slides].
    rewrite nth_error_adjust, nth_error_map.
    destruct (Nat.eqb_spec i (Z.to_nat z)) as [->|Hne].
    + destruct (nth_error (Slider.slides s) (Z.to_nat z)) as [cl|] eqn:E.
      * cbn [option_map]. apply classAdd_adds.
      * apply nth_error_None in E. lia.
    + destruct (nth_error (Slider.slides s) i) as [cl|]; [|reflexivity].
      cbn [option_map]. apply classRemove_removes.
  - apply map_adjust_map; [apply classRemove_classAdd | apply classRemove_twice].
Qed.

Lemma nextSlide_runs (z : Z) (s : Slider.state) :
  Slider.currentSlide s = Slider.Int z ->
  (0 <= z < Z.of_nat (List.length (Slider.slides s)))%Z ->
  let next := ((z + 1) mod Z.of_nat (List.length (Slider.slides s)))%Z in
  Slider.nextSlide s
  = Slider.showSlide (Slider.Int next)
      {| Slider.currentSlide := Slider.Int next; Slider.slides := Slider.slides s |}.
Proof.
  intros Hc Hz. cbv zeta. unfold Slider.nextSlide. rewrite Hc.
  unfold Slider.totalSlides. cbn [Slider.add Slider.rem].
  destruct (Z.eqb_spec (Z.of_nat (List.length (Slider.slides s))) 0); [lia|].
  rewrite Z.rem_mod_nonneg by lia. reflexivity.
Qed.

Lemma previousSlide_runs (z : Z) (s : Slider.state) :
  Slider.currentSlide s = Slider.Int z ->
  (0 <= z < Z.of_nat (List.length (Slider.slides s)))%Z ->
  let previous := ((z - 1) mod Z.of_nat (List.length (Slider.slides s)))%Z in
  Slider.previousSlide s
  = Slider.showSlide (Slider.Int previous)
      {| Slider.currentSlide := Slider.Int previous; Slider.slides := Slider.slides s |}.
Proof.
  intros Hc Hz. cbv zeta. unfold Slider.previousSlide. rewrite Hc.
  unfold Slider.totalSlides. cbn [Slider.add Slider.sub Slider.rem].
  destruct (Z.eqb_spec (Z.of_nat (List.length (Slider.slides s))) 0); [lia|].
  rewrite Z.rem_mod_nonneg by lia.
  replace (z - 1 + Z.of_nat (List.length (Slider.slides s)))%Z
    with (z - 1 + 1 * Z.of_nat (List.length (Slider.slides s)))%Z by lia.
  rewrite Z.mod_add by lia. reflexivity.
Qed.

(** The step both functions make, for the index [target] they compute. *)
Lemma slide_step (target : Z) (s : Slider.state) :
  (0 <= target < Z.of_nat (List.length (Slider.slides s)))%Z ->
  exists s',
    Slider.showSlide (Slider.Int target)
      {| Slider.currentSlide := Slider.Int target; Slider.slides := Slider.slides s |}
    = Slider.Done s' /\
    Slider.currentSlide s' = Slider.Int target /\
    List.length (Slider.slides s') = List.length (Slider.slides s) /\
    (forall i, Slider.active s' i = (i =? Z.to_nat target)%nat) /\
    map (Slider.classRemove "active") (Slider.slides s')
    = map (Slider.classRemove "active") (Slider.slides s).
Proof.
  intros H.
  exact (showSlide_shows target
           {| Slider.currentSlide := Slider.Int target; Slider.slides := Slider.slides s |} H).
Qed.

(** X17.  With [currentSlide] at an index [z] of the slides, [nextSlide()] does
    not throw and shows the next slide, the first one after the last: it
    sets [currentSlide] to z + 1, or to 0 at the end; afterwards the slide
    at that index, and no other, has the class 'active'; the number of
    slides and their other classes are as before. *)
Theorem nextSlide_shows_the_next (z : Z) (s : Slider.state) :
  Slider.currentSlide s = Slider.Int z ->
  (0 <= z < Z.of_nat (List.length (Slider.slides s)))%Z ->
  let next := (if z + 1 =? Z.of_nat (List.length (Slider.slides s)) then 0 else z + 1)%Z in
  exists s',
    Slider.nextSlide s = Slider.Done s' /\
    Slider.currentSlide s' = Slider.Int next /\
    List.length (Slider.slides s') = List.length (Slider.slides s) /\
    (forall i, Slider.active s' i = (i =? Z.to_nat next)%nat) /\
    map (Slider.classRemove "active") (Slider.slides s')
    = map (Slider.classRemove "active") (Slider.slides s).
Proof.
  intros Hc Hz. cbv zeta. rewrite (nextSlide_runs z s Hc Hz).
  set (n := Z.of_nat (List.length (Slider.slides s))) in *.
  assert (((z + 1) mod n)%Z = (if (z + 1 =? n)%Z then 0 else z + 1)%Z) as ->.
  { destruct (Z.eqb_spec (z + 1) n) as [->|Hne].
    - apply Z.mod_same. lia.
    - apply Z.mod_small. lia. }
  apply slide_step. fold n. destruct (Z.eqb_spec (z + 1) n); lia.
Qed.

Lemma nextSlide_shows_the_next_witness :
  exists s',
    Slider.nextSlide {| Slider.currentSlide := Slider.Int 2;
                        Slider.slides := [["card"]; ["card"]; ["card"; "active"]] |}
    = Slider.Done s' /\
    s' = {| Slider.currentSlide := Slider.Int 0;
            Slider.slides := [["card"; "active"]; ["card"]; ["card"]] |}.
Proof.
  destruct (nextSlide_shows_the_next 2
              {| Slider.currentSlide := Slider.Int 2;
                 Slider.slides := [["card"]; ["card"]; ["card"; "active"]] |}
              eq_refl ltac:(cbn; lia)) as (s' & Hs' & _).
  exists s'. split; [exact Hs'|].
  vm_compute in Hs'. injection Hs' as <-. reflexivity.
Defined.

(** X18.  With [currentSlide] at an index [z] of the slides, [previousSlide()]
    does not throw and shows the slide before, the last one before the
    first: it sets [currentSlide] to z - 1, or to the last index at the
    start; afterwards the slide at that index, and no other, has the class
    'active'; the number of slides and their other classes are as before. *)
Theorem previousSlide_shows_the_previous (z : Z) (s : Slider.state) :
  Slider.currentSlide s = Slider.Int z ->
  (0 <= z < Z.of_nat (List.length (Slider.slides s)))%Z ->
  let previous := (if z =? 0 then Z.of_nat (List.length (Slider.slides s)) - 1 else z - 1)%Z in
  exists s',
    Slider.previousSlide s = Slider.Done s' /\
    Slider.currentSlide s' = Slider.Int previous /\
    List.length (Slider.slides s') = List.length (Slider.slides s) /\
    (forall i, Slider.active s' i = (i =? Z.to_nat previous)%nat) /\
    map (Slider.classRemove "active") (Slider.slides s')
    = map (Slider.classRemove "active") (Slider.slides s).
Proof.
  intros Hc Hz. cbv zeta. rewrite (previousSlide_runs z s Hc Hz).
  set (n := Z.of_nat (List.length (Slider.slides s))) in *.
  assert (((z - 1) mod n)%Z = (if (z =? 0)%Z then n - 1 else z - 1)%Z) as ->.
  { destruct (Z.eqb_spec z 0) as [->|Hne].
    - replace (0 - 1)%Z with (n - 1 + (-1) * n)%Z by lia.
      rewrite Z.mod_add by lia. apply Z.mod_small. lia.
    - apply Z.mod_small. lia. }
  apply slide_step. fold n. destruct (Z.eqb_spec z 0); lia.
Qed.

Lemma previousSlide_shows_the_previous_witness :
  exists s',
    Slider.previousSlide {| Slider.currentSlide := Slider.Int 0;
                            Slider.slides := [["card"; "active"]; ["card"]; ["card"]] |}
    = Slider.Done s' /\
    s' = {| Slider.currentSlide := Slider.Int 2;
            Slider.slides := [["card"]; ["card"]; ["card"; "active"]] |}.
Proof.
  destruct (previousSlide_shows_the_previous 0
              {| Slider.currentSlide := Slider.Int 0;
                 Slider.slides := [["card"; "active"]; ["card"]; ["card"]] |}
              eq_refl ltac:(cbn; lia)) as (s' & Hs' & _).
  exists s'. split; [exact Hs'|].
  vm_compute in Hs'. injection Hs' as <-. reflexivity.
Defined.

(** X19.  [previousSlide()] undoes [nextSlide()], and [nextSlide()] undoes
    [previousSlide()]: with [currentSlide] at an index [z] of the slides,
    either pair of calls leaves [currentSlide] at [z] and the slide at [z],
    and no other, with the class 'active'. *)
Theorem previous_undoes_next (z : Z) (s : Slider.state) :
  Slider.currentSlide s = Slider.Int z ->
  (0 <= z < Z.of_nat (List.length (Slider.slides s)))%Z ->
  (Slider.currentSlide (tickBack (tick s)) = Slider.Int z /\
   forall i, Slider.active (tickBack (tick s)) i = (i =? Z.to_nat z)%nat) /\
  (Slider.currentSlide (tick (tickBack s)) = Slider.Int z /\
   forall i, Slider.active (tick (tickBack s)) i = (i =? Z.to_nat z)%nat).
Proof.
  intros Hc Hz. set (n := Z.of_nat (List.length (Slider.slides s))) in *.
  assert (0 <= (z + 1) mod n < n)%Z as Hnext by (apply Z.mod_pos_bound; lia).
  assert (0 <= (z - 1) mod n < n)%Z as Hprev by (apply Z.mod_pos_bound; lia).
  split.
  - unfold tick. rewrite (nextSlide_runs z s Hc Hz). fold n.
    destruct (slide_step ((z + 1) mod n) s Hnext) as (s1 & -> & Hc1 & Hlen1 & _).
    cbn [Slider.stateOf]. unfold tickBack.
    rewrite (previousSlide_runs ((z + 1) mod n) s1 Hc1) by (rewrite Hlen1; exact Hnext).
    rewrite Hlen1. fold n. rewrite Zminus_mod_idemp_l.
    replace (z + 1 - 1)%Z with z by lia. rewrite Z.mod_small by lia.
    destruct (slide_step z s1) as (s2 & -> & Hc2 & _ & Hact2 & _);
      [rewrite Hlen1; exact Hz|].
    split; [exact Hc2 | exact Hact2].
  - unfold tickBack. rewrite (previousSlide_runs z s Hc Hz). fold n.
    destruct (slide_step ((z - 1) mod n) s Hprev) as (s1 & -> & Hc1 & Hlen1 & _).
    cbn [Slider.stateOf]. unfold tick.
    rewrite (nextSlide_runs ((z - 1) mod n) s1 Hc1) by (rewrite Hlen1; exact Hprev).
    rewrite Hlen1. fold n. rewrite Zplus_mod_idemp_l.
    replace (z - 1 + 1)%Z with z by lia. rewrite Z.mod_small by lia.
    destruct (slide_step z s1) as (s2 & -> & Hc2 & _ & Hact2 & _);
      [rewrite Hlen1; exact Hz|].
    split; [exact Hc2 | exact Hact2].
Qed.

Lemma previous_undoes_next_witness :
  (Slider.currentSlide (tickBack (tick threeSlides)) = Slider.Int 0 /\
   forall i, Slider.active (tickBack (tick threeSlides)) i = (i =? Z.to_nat 0)%nat) /\
  (Slider.currentSlide (tick (tickBack threeSlides)) = Slider.Int 0 /\
   forall i, Slider.active (tick (tickBack threeSlides)) i = (i =? Z.to_nat 0)%nat).
Proof.
  apply (previous_undoes_next 0 threeSlides).
  - reflexivity.
  - cbn. lia.
Defined.

(** X20.  The auto-play goes round: with [currentSlide] at an index [z] of [n]
    slides, [k] calls of [nextSlide()] leave it at (z + k) mod n, with that
    slide, and no other, marked 'active' once a call has been made.  So
    after [n] calls the slider shows the slide it started from. *)
Theorem autoplay_goes_round (k : nat) (z : Z) (s : Slider.state) :
  Slider.currentSlide s = Slider.Int z ->
  (0 <= z < Z.of_nat (List.length (Slider.slides s)))%Z ->
  let n := Z.of_nat (List.length (Slider.slides s)) in
  let s' := Nat.iter k tick s in
  Slider.currentSlide s' = Slider.Int ((z + Z.of_nat k) mod n) /\
  List.length (Slider.slides s') = List.length (Slider.slides s) /\
  ((1 <= k)%nat -> forall i, Slider.active s' i = (i =? Z.to_nat ((z + Z.of_nat k) mod n))%nat) /\
  Slider.currentSlide (Nat.iter (List.length (Slider.slides s)) tick s) = Slider.Int z.
Proof.
  intros Hc Hz. cbv zeta. set (n := Z.of_nat (List.length (Slider.slides s))) in *.
  assert (forall j,
            Slider.currentSlide (Nat.iter j tick s) = Slider.Int ((z + Z.of_nat j) mod n) /\
            List.length (Slider.slides (Nat.iter j tick s)) = List.length (Slider.slides s) /\
            ((1 <= j)%nat ->
             forall i, Slider.active (Nat.iter j tick s) i
                       = (i =? Z.to_nat ((z + Z.of_nat j) mod n))%nat)) as Hall.
  { induction j as [|j (IHc & IHlen & _)].
    - cbn [Nat.iter]. rewrite Z.add_0_r, Z.mod_small by lia.
      split; [exact Hc|]. split; [reflexivity | lia].
    - change (Nat.iter (S j) tick s) with (tick (Nat.iter j tick s)).
      set (sj := Nat.iter j tick s) in *.
      assert (0 <= (z + Z.of_nat j) mod n < n)%Z as Hj by (apply Z.mod_pos_bound; lia).
      unfold tick.
      rewrite (nextSlide_runs _ sj IHc) by (rewrite IHlen; exact Hj).
      rewrite IHlen. fold n. rewrite Zplus_mod_idemp_l.
      replace (z + Z.of_nat j + 1)%Z with (z + Z.of_nat (S j))%Z by lia.
      destruct (slide_step ((z + Z.of_nat (S j)) mod n) sj) as (s1 & -> & Hc1 & Hlen1 & Hact1 & _).
      { rewrite IHlen. apply Z.mod_pos_bound. lia. }
      cbn [Slider.stateOf]. split; [exact Hc1|]. split; [congruence|].
      intros _. exact Hact1. }
  destruct (Hall k) as (H1 & H2 & H3). repeat split; try assumption.
  destruct (Hall (List.length (Slider.slides s))) as (-> & _). fold n.
  replace (z + n)%Z with (z + 1 * n)%Z by lia. rewrite Z.mod_add by lia.
  now rewrite Z.mod_small by lia.
Qed.

Lemma autoplay_goes_round_witness :
  Slider.currentSlide (Nat.iter 7 tick threeSlides) = Slider.Int 1 /\
  Slider.active (Nat.iter 7 tick threeSlides) 1 = true /\
  Slider.active (Nat.iter 7 tick threeSlides) 0 = false.
Proof.
  destruct (autoplay_goes_round 7 0 threeSlides eq_refl ltac:(cbn; lia))
    as (Hc & _ & Hact & _).
  split; [exact Hc|]. split; apply Hact; lia.
Defined.

(** X21.  On a page without testimonial cards every call of [nextSlide()] and of
    [previousSlide()] throws a TypeError, the auto-play's as well:
    [currentSlide] becomes NaN (a remainder by 0) and [slides[NaN]] is
    undefined.  The state it leaves has no slides either, so that the next
    call throws again. *)
Theorem empty_slider_throws (s : Slider.state) :
  Slider.slides s = [] ->
  let broken := {| Slider.currentSlide := Slider.NaN; Slider.slides := [] |} in
  Slider.nextSlide s = Slider.TypeError broken /\
  Slider.previousSlide s = Slider.TypeError broken /\
  Slider.nextSlide broken = Slider.TypeError broken /\
  Slider.previousSlide broken = Slider.TypeError broken.
Proof.
  intros H. cbv zeta. unfold Slider.nextSlide, Slider.previousSlide, Slider.totalSlides.
  rewrite H. cbn [List.length Z.of_nat Slider.slides Slider.currentSlide].
  assert (forall a, Slider.rem a (Slider.Int 0) = Slider.NaN) as Hrem
      by (intros [|x]; reflexivity).
  rewrite !Hrem. repeat split; reflexivity.
Qed.

Lemma empty_slider_throws_witness :
  Slider.nextSlide emptySlider
  = Slider.TypeError {| Slider.currentSlide := Slider.NaN; Slider.slides := [] |}.
Proof. apply (proj1 (empty_slider_throws emptySlider eq_refl)). Defined.

(** ** [throttle] *)

Lemma clearTimeout_nil {A : Type} (id : option nat) : Throttle.clearTimeout A id [] = [].
Proof. destruct id; reflexivity. Qed.

Lemma clearTimeout_own {A : Type} (id : nat) (args : A) :
  Throttle.clearTimeout A (Some id) [(id, args)] = [].
Proof. cbn. now rewrite Nat.eqb_refl. Qed.

Lemma executedFunction_sets {A : Type} (args : A) (s : Throttle.state A) :
  oneTimer s ->
  Throttle.timers (Throttle.executedFunction A args s) = [(Throttle.nextId s, args)] /\
  Throttle.timeout (Throttle.executedFunction A args s) = Some (Throttle.nextId s) /\
  Throttle.invoked (Throttle.executedFunction A args s) = Throttle.invoked s.
Proof.
  intros [H|(id & a & H & Ht)]; unfold Throttle.executedFunction; cbn; rewrite H.
  - rewrite clearTimeout_nil. repeat split.
  - rewrite Ht, clearTimeout_own. repeat split.
Qed.

Lemma step_oneTimer {A : Type} (s : Throttle.state A) (e : Throttle.event A) :
  oneTimer s -> oneTimer (Throttle.step A s e).
Proof.
  intros H. destruct e as [args|id]; cbn [Throttle.step].
  - destruct (executedFunction_sets args s H) as (H1 & H2 & _).
    right. now exists (Throttle.nextId s), args.
  - unfold Throttle.fire. destruct H as [H|(id0 & a & H & Ht)].
    + rewrite H. cbn. left. exact H.
    + rewrite H. cbn [find fst]. destruct (Nat.eqb_spec id0 id) as [->|Hne].
      * left. cbn. rewrite Nat.eqb_refl. cbn. apply clearTimeout_nil.
      * right. now exists id0, a.
Qed.

Lemma run_oneTimer {A : Type} (events : list (Throttle.event A)) (s : Throttle.state A) :
  oneTimer s -> oneTimer (Throttle.run A events s).
Proof.
  revert s. induction events as [|e events IH]; intros s H; [exact H|].
  apply IH, step_oneTimer, H.
Qed.

Lemma calls_invoke_nothing {A : Type} (calls : list A) (s : Throttle.state A) :
  oneTimer s ->
  Throttle.invoked (Throttle.run A (map Throttle.Call calls) s) = Throttle.invoked s.
Proof.
  revert s. induction calls as [|args calls IH]; intros s H; [reflexivity|].
  cbn [map Throttle.run fold_left].
  change (fold_left (Throttle.step A) (map Throttle.Call calls) ?x)
    with (Throttle.run A (map Throttle.Call calls) x).
  rewrite IH by (apply (step_oneTimer s (Throttle.Call args)), H).
  cbn [Throttle.step]. apply executedFunction_sets, H.
Qed.

(** X22.  The function [throttle] returns delays rather than throttles: a call
    never calls [func] itself; it cancels the timer of the call before and
    sets a new one.  So, whatever happened before, after any number of calls
    in a row [func] has not been called since, exactly one timer is pending,
    and when it fires [func] is called once, with the arguments of the last
    call; the arguments of the calls before are dropped. *)
Theorem throttle_waits_for_the_last_call
  {A : Type} (history : list (Throttle.event A)) (calls : list A) (last : A) :
  let before := Throttle.run A history (Throttle.initial A) in
  let s := Throttle.run A (map Throttle.Call calls ++ [Throttle.Call last]) before in
  Throttle.invoked s = Throttle.invoked before /\
  exists id,
    Throttle.timers s = [(id, last)] /\
    Throttle.timeout s = Some id /\
    Throttle.invoked (Throttle.fire A id s) = (Throttle.invoked before ++ [last])%list /\
    Throttle.timers (Throttle.fire A id s) = [].
Proof.
  cbv zeta. set (before := Throttle.run A history (Throttle.initial A)).
  assert (oneTimer before) as Hbefore by (apply run_oneTimer; now left).
  unfold Throttle.run at 1 2 3 4 5. rewrite fold_left_app. cbn [fold_left Throttle.step].
  change (fold_left (Throttle.step A) (map Throttle.Call calls) before)
    with (Throttle.run A (map Throttle.Call calls) before).
  set (s := Throttle.run A (map Throttle.Call calls) before).
  assert (oneTimer s) as Hs by (now apply run_oneTimer).
  destruct (executedFunction_sets last s Hs) as (H1 & H2 & H3).
  assert (Throttle.invoked s = Throttle.invoked before) as Hinv
      by (now apply calls_invoke_nothing).
  split; [congruence|]. exists (Throttle.nextId s).
  split; [exact H1|]. split; [exact H2|].
  unfold Throttle.fire. rewrite H1. cbn [find fst]. rewrite Nat.eqb_refl.
  cbn [Throttle.invoked Throttle.timers filter fst]. rewrite Nat.eqb_refl. cbn [negb].
  rewrite clearTimeout_nil, H3, Hinv. split; reflexivity.
Qed.

(** ** The store mirrors the ledger *)

Lemma reread_twice (v : jsval) : JSON.reread (JSON.reread v) = JSON.reread v.
Proof.
  destruct v as [| |b|x|s]; try reflexivity. unfold JSON.reread at 2 3.
  destruct (is_finite x) eqn:Ef; [|reflexivity].
  destruct (is_zero x) eqn:Ez; [reflexivity|]. unfold JSON.reread. now rewrite Ef, Ez.
Qed.

Lemma rereadTransaction_twice (tx : Transaction) :
  rereadTransaction (rereadTransaction tx) = rereadTransaction tx.
Proof. unfold rereadTransaction. cbn. now rewrite !reread_twice. Qed.

Lemma rereadBlock_twice (b : Block) : rereadBlock (rereadBlock b) = rereadBlock b.
Proof.
  unfold rereadBlock. cbn. f_equal. rewrite map_map.
  apply map_ext. intros tx. apply rereadTransaction_twice.
Qed.

Lemma stringifyParse_twice (c : list Block) (p : list Transaction) :
  stringifyParse (map rereadBlock c) (map rereadTransaction p) = stringifyParse c p.
Proof.
  unfold stringifyParse. f_equal; rewrite map_map; apply map_ext; intros x.
  - apply rereadBlock_twice.
  - apply rereadTransaction_twice.
Qed.

Lemma reachable_mirrored (w : World) :
  reachable w ->
  vnc_blockchain (localStorage w)
  = if setItemThrows (localStorage w) then None
    else Some (stringifyParse (chain (this w)) (pendingTransactions (this w))).
Proof.
  intros Hr. induction Hr as
    [now throws w H
    |tx w w' Hr IH H
    |fuel now minerAddress w block w' Hr IH H
    |d w Hr IH
    |now w w' Hr IH H
    |now w w' Hr IH H].
  - rewrite newBlockchain_runs in H. cbn in H. injection H as <-. cbn.
    destruct throws; reflexivity.
  - rewrite createTransaction_runs in H. destruct (accepted tx); [|discriminate].
    injection H as <-. cbn [localStorage this setPendingTransactions chain pendingTransactions].
    destruct (setItemThrows (localStorage w)) eqn:E; [now rewrite E, IH | reflexivity].
  - apply mined_block_fields in H as (tip & _ & -> & _).
    unfold afterMining. cbn [localStorage this chain pendingTransactions].
    destruct (setItemThrows (localStorage w)) eqn:E; [now rewrite E, IH | reflexivity].
  - exact IH.
  - rewrite reset_runs in H. injection H as <-. cbn [localStorage this chain pendingTransactions].
    destruct (setItemThrows (localStorage w)); reflexivity.
  - destruct (reachable_sound w Hr) as (Hne & _).
    rewrite newBlockchain_runs in H. cbv zeta in H. rewrite IH in H.
    destruct (setItemThrows (localStorage w)) eqn:E.
    + injection H as <-. cbn [localStorage]. rewrite E. exact IH.
    + cbn [stringifyParse persistedChain persistedPending] in H.
      destruct (chain (this w)) as [|g rest] eqn:Ec; [contradiction|].
      cbn [map] in H. injection H as <-. cbn [localStorage this chain pendingTransactions].
      rewrite E, IH. f_equal. symmetry.
      apply (stringifyParse_twice (g :: rest)).
Qed.

(** X23.  The store mirrors the ledger.  On every reachable world whose store
    takes writes, the stored item is the chain and the queue as they are
    now, as JSON keeps them.  So the page loaded again at any time gets back
    every block and every queued transaction (with amounts that are not
    finite read as [null] and -0 as 0); on a store that refuses writes
    there is no item at all. *)
Theorem store_mirrors_the_ledger (w : World) :
  reachable w ->
  vnc_blockchain (localStorage w)
  = (if setItemThrows (localStorage w) then None
     else Some (stringifyParse (chain (this w)) (pendingTransactions (this w)))) /\
  (setItemThrows (localStorage w) = false ->
   forall now, exists w',
     newBlockchain now (localStorage w) = Returned tt w' /\
     chain (this w') = map rereadBlock (chain (this w)) /\
     pendingTransactions (this w') = map rereadTransaction (pendingTransactions (this w)) /\
     localStorage w' = localStorage w).
Proof.
  intros Hr. pose proof (reachable_mirrored w Hr) as Hm. split; [exact Hm|].
  intros Hw now. rewrite Hw in Hm. destruct (reachable_sound w Hr) as (Hne & _).
  eexists. split; [apply newBlockchain_runs|]. cbv zeta. rewrite Hm.
  cbn [stringifyParse persistedChain persistedPending].
  destruct (chain (this w)) as [|g rest]; [contradiction|].
  cbn [map this chain pendingTransactions localStorage]. repeat split.
Qed.

Lemma store_mirrors_the_ledger_witness :
  vnc_blockchain (localStorage firstMinedWorld)
  = (if setItemThrows (localStorage firstMinedWorld) then None
     else Some (stringifyParse (chain (this firstMinedWorld))
                               (pendingTransactions (this firstMinedWorld)))) /\
  (setItemThrows (localStorage firstMinedWorld) = false ->
   forall now, exists w',
     newBlockchain now (localStorage firstMinedWorld) = Returned tt w' /\
     chain (this w') = map rereadBlock (chain (this firstMinedWorld)) /\
     pendingTransactions (this w')
     = map rereadTransaction (pendingTransactions (this firstMinedWorld)) /\
     localStorage w' = localStorage firstMinedWorld).
Proof. apply (store_mirrors_the_ledger firstMinedWorld). apply firstMinedWorld_reachable. Defined.

(** ** After a reset *)

(** X24.  [reset()] always returns and leaves a clean ledger: every address
    has the balance 0 afterwards, the rewards mined before and the
    transactions queued before being gone with the chain, and
    [isChainValid()] returns [true], whatever the difficulty. *)
Theorem reset_clears_the_ledger (now : Z) (w : World) :
  exists w',
    reset now w = Returned tt w' /\
    (forall address, getBalanceOfAddress address (this w') = Some 0%float) /\
    isChainValid w' = Returned true w'.
Proof.
  eexists. split; [apply reset_runs|]. split.
  - intros address. rewrite getBalanceOfAddress_flat.
    unfold allTransactions. cbn [this chain pendingTransactions flat_map genesisBlock
                                 transactions app fold_left].
    unfold applyTransaction, genesisTransaction. cbn [from to amount].
    destruct (strictEq (VString "genesis") address);
      destruct (strictEq (VString "network") address); reflexivity.
  - reflexivity.
Qed.

(** ** The page between the awaits of a mining *)

Lemma endMining_runs (minerAddress : string) (block : Block) (w : World) :
  endMining minerAddress block w = Returned block (afterMining minerAddress block w).
Proof.
  unfold endMining. unfold bind at 1. unfold getThis.
  unfold bind at 1. unfold modifyThis at 1. unfold bind at 1. unfold modifyThis at 1.
  unfold bind at 1. rewrite save_returns. reflexivity.
Qed.

(** The two parts, with the loop between them, are the method. *)
Lemma mining_in_two_parts (fuel : nat) (now : Z) (minerAddress : string) (w : World) :
  minePendingTransactions fuel now minerAddress w =
  match beginMining now minerAddress (this w) with
  | None => Threw "TypeError" w
  | Some job =>
      match mineLoop fuel (miningTarget job) (miningBlock job) with
      | None => Pending
      | Some block => endMining (miningMiner job) block w
      end
  end.
Proof.
  rewrite minePendingTransactions_runs. unfold beginMining.
  destruct (latestBlock (this w)) as [tip|]; [|reflexivity].
  cbn [miningTarget miningBlock miningMiner].
  change (setNonce 0 (newBlock now (pendingTransactions (this w)) (hash tip)))
    with (candidate now (this w) tip 0).
  change (JsString.repeat "0" (N.to_nat (difficulty (this w)))) with (target (this w)).
  destruct (mineLoop fuel (target (this w)) (candidate now (this w) tip 0)) as [block|];
    [|reflexivity].
  now rewrite endMining_runs.
Qed.

Lemma sound_newBlockchain (now : Z) (store : Storage) (w' : World) :
  (forall p, vnc_blockchain store = Some p -> linked (persistedChain p)) ->
  newBlockchain now store = Returned tt w' -> sound w'.
Proof.
  intros Hstore H. rewrite newBlockchain_runs in H. injection H as <-.
  destruct (vnc_blockchain store) as [p|] eqn:E.
  - specialize (Hstore p eq_refl).
    destruct (persistedChain p) as [|b c] eqn:Ec.
    + refine (conj _ (conj _ _)); cbn [this chain localStorage];
        [discriminate | apply linked_single |].
      intros q. destruct (setItemThrows store); cbn; [rewrite E|]; intros Hq;
        injection Hq as <-; [now rewrite Ec | apply linked_single].
    + refine (conj _ (conj _ _)); cbn [this chain localStorage];
        [discriminate | exact Hstore |].
      intros q Hq. rewrite E in Hq. injection Hq as <-. now rewrite Ec.
  - refine (conj _ (conj _ _)); cbn [this chain localStorage];
      [discriminate | apply linked_single |].
    intros q. destruct (setItemThrows store); cbn; [rewrite E; discriminate|].
    intros Hq. injection Hq as <-. apply linked_single.
Qed.

Lemma sound_createTransaction (tx : Transaction) (w w' : World) :
  sound w -> createTransaction tx w = Returned tt w' -> sound w'.
Proof.
  intros (Hne & Hl & Hs) H. rewrite createTransaction_runs in H.
  destruct (accepted tx); [|discriminate]. injection H as <-.
  refine (conj _ (conj _ _)); cbn [this chain localStorage setPendingTransactions];
    [exact Hne | exact Hl |].
  intros q. destruct (setItemThrows (localStorage w)); [apply Hs|].
  cbn. intros Hq. injection Hq as <-. now apply linked_reread.
Qed.

Lemma sound_afterMining (minerAddress : string) (tip block : Block) (w : World) :
  sound w ->
  latestBlock (this w) = Some tip ->
  hash block = sha256 (toHashString block) ->
  previousHash block = hash tip ->
  sound (afterMining minerAddress block w).
Proof.
  intros (Hne & Hl & Hs) Htip Hhash Hprev.
  assert (linked (chain (this w) ++ [block])) as Hl'
      by (apply (linked_snoc _ tip); assumption).
  refine (conj _ (conj _ _)); cbn [this chain localStorage afterMining].
  - intros E. apply app_eq_nil in E as (_ & E). discriminate.
  - exact Hl'.
  - intros q. destruct (setItemThrows (localStorage w)); [apply Hs|].
    cbn. intros Hq. injection Hq as <-. now apply linked_reread.
Qed.

Lemma sound_reset (now : Z) (w w' : World) : reset now w = Returned tt w' -> sound w'.
Proof.
  intros H. rewrite reset_runs in H. injection H as <-.
  refine (conj _ (conj _ _)); cbn [this chain localStorage];
    [discriminate | apply linked_single |].
  intros q. destruct (setItemThrows (localStorage w)); cbn; [discriminate|].
  intros Hq. injection Hq as <-. apply linked_single.
Qed.

(** One event keeps the chain linked and the mining in step with the tip,
    unless it is a click on [btn-reset] during a mining. *)
Lemma pageStep_keeps (p p' : Page) (e : pageEvent) :
  sound (world p) -> followsTheTip p ->
  pageStep p e = Some p' ->
  match e, mining p with
  | ClickReset _, Some _ => False
  | _, _ => True
  end ->
  sound (world p') /\ followsTheTip p'.
Proof.
  intros Hsound Htip Hstep Hcalm.
  destruct e as [sender recipient parsed|now miner parsed|attempts|now|now];
    cbn [pageStep] in Hstep.
  - injection Hstep as <-. unfold addTransactionClick.
    pose proof (createTransaction_runs (clickTransaction sender recipient parsed) (world p))
      as Hrun.
    rewrite accepted_clickTransaction in Hrun. rewrite Hrun. cbn [fst world mining].
    split; [exact (sound_createTransaction _ _ _ Hsound Hrun)|].
    intros job Hjob. destruct (Htip job Hjob) as (tip & Ht & Hp). exists tip.
    split; [exact Ht | exact Hp].
  - destruct (mining p); [discriminate|]. injection Hstep as <-. cbn [world mining].
    split; [exact Hsound|].
    intros job Hjob. unfold beginMining in Hjob.
    destruct (latestBlock _) as [tip|] eqn:Et; [|discriminate].
    injection Hjob as <-. exists tip. split; [first [exact Et | reflexivity] | reflexivity].
  - destruct (mining p) as [job|] eqn:Ejob; [|discriminate].
    destruct (mineLoop _ _ _) as [block|] eqn:Eloop; [|discriminate].
    rewrite endMining_runs in Hstep. injection Hstep as <-. cbn [world mining].
    destruct (Htip job Ejob) as (tip & Ht & Hp).
    apply mineLoop_sound in Eloop as (n & -> & _).
    split; [|intros job' Hjob'; discriminate Hjob'].
    apply (sound_afterMining _ tip); [exact Hsound | exact Ht | reflexivity | exact Hp].
  - destruct (mining p); [contradiction|].
    destruct (reset now (world p)) as [[] w| |] eqn:Er; [|discriminate|discriminate].
    injection Hstep as <-. cbn [world mining].
    split; [exact (sound_reset _ _ _ Er) | intros job Hjob; discriminate Hjob].
  - unfold openPage in Hstep.
    destruct (newBlockchain now (localStorage (world p))) as [[] w| |] eqn:En;
      [|discriminate|discriminate].
    injection Hstep as <-. cbn [world mining].
    destruct Hsound as (_ & _ & Hs).
    split; [exact (sound_newBlockchain _ _ _ Hs En) | intros job Hjob; discriminate Hjob].
Qed.

Lemma pageRun_keeps (events : list pageEvent) :
  forall p last,
    sound (world p) -> followsTheTip p ->
    pageRun events p = Some last ->
    noResetWhileMining events p = true ->
    sound (world last).
Proof.
  induction events as [|e rest IH]; intros p last Hsound Htip Hrun Hcalm.
  - injection Hrun as <-. exact Hsound.
  - cbn [pageRun noResetWhileMining] in Hrun, Hcalm.
    destruct (pageStep p e) as [p'|] eqn:Estep; [|discriminate].
    assert (match e, mining p with ClickReset _, Some _ => False | _, _ => True end /\
            noResetWhileMining rest p' = true) as (Hnow & Hlater).
    { destruct e; try (split; [exact I | exact Hcalm]).
      destruct (mining p); [discriminate | split; [exact I | exact Hcalm]]. }
    destruct (pageStep_keeps p p' e Hsound Htip Estep Hnow) as (Hsound' & Htip').
    exact (IH p' last Hsound' Htip' Hrun Hlater).
Qed.

(** X4.  On the page as first opened on a store without an item, after any
    clicks on the buttons, endings of minings and loads of the page, in any
    order in which they can happen, the chain is linked, as long as no
    click on [btn-reset] came while a block was being mined: each block
    after the first holds the digest of its fingerprint and the hash of the
    block before it.  So an [isChainValid()] run on that state returns
    [true] exactly when the hash of every block after the first starts with
    as many '0' as the current difficulty: only a change of difficulty
    makes it return [false]. *)
Theorem only_the_difficulty_invalidates
  (now : Z) (throws : bool) (events : list pageEvent) (first last : Page) :
  openPage now {| vnc_blockchain := None; setItemThrows := throws |} = Some first ->
  pageRun events first = Some last ->
  noResetWhileMining events first = true ->
  linked (chain (this (world last))) /\
  (isChainValid (world last) = Returned true (world last) <->
   forall i block,
     (1 <= i)%nat ->
     nth_error (chain (this (world last))) i = Some block ->
     JsString.startsWith (target (this (world last))) (hash block) = true).
Proof.
  intros Hopen Hrun Hcalm. unfold openPage in Hopen.
  destruct (newBlockchain now _) as [[] w| |] eqn:En; [|discriminate|discriminate].
  injection Hopen as <-.
  assert (sound w) as Hsound.
  { apply (sound_newBlockchain now {| vnc_blockchain := None; setItemThrows := throws |} w);
      [intros p Hp; discriminate Hp | exact En]. }
  assert (sound (world last)) as (_ & Hl & _).
  { apply (pageRun_keeps events {| world := w; mining := None |} last);
      [exact Hsound | intros job Hjob; discriminate Hjob | exact Hrun | exact Hcalm]. }
  split; [exact Hl|]. rewrite isChainValid_runs. split.
  - intros H. injection H as H. rewrite isChainValid_spec in H.
    intros i block Hi Hb.
    destruct (nth_error (chain (this (world last))) (i - 1)) as [previous|] eqn:Ep.
    + exact (proj2 (proj2 (H i block previous Hi Hb Ep))).
    + apply nth_error_None in Ep.
      assert (nth_error (chain (this (world last))) i <> None) as Hsome by congruence.
      apply nth_error_Some in Hsome. lia.
  - intros H. f_equal. apply isChainValid_spec.
    intros i current previous Hi Hc Hp.
    destruct (Hl i current previous Hi Hc Hp) as (H1 & H2).
    repeat split; [exact H1 | exact H2 | exact (H i current Hi Hc)].
Qed.

(** A mining during which a transaction is submitted: the chain is linked
    when the mining has ended (and the transaction is no longer queued). *)
Lemma only_the_difficulty_invalidates_witness :
  pageRun [ClickMine 1700000001000 "alice" (JInt 1);
           ClickAddTransaction "a" "b" 5;
           MiningEnds 14] firstPage
  = Some {| world := firstMinedWorld; mining := None |} /\
  linked (chain (this firstMinedWorld)) /\
  (isChainValid firstMinedWorld = Returned true firstMinedWorld <->
   forall i block,
     (1 <= i)%nat ->
     nth_error (chain (this firstMinedWorld)) i = Some block ->
     JsString.startsWith (target (this firstMinedWorld)) (hash block) = true).
Proof.
  split; [vm_compute; reflexivity|].
  apply (only_the_difficulty_invalidates 1700000000000 false
           [ClickMine 1700000001000 "alice" (JInt 1);
            ClickAddTransaction "a" "b" 5;
            MiningEnds 14]
           firstPage {| world := firstMinedWorld; mining := None |}).
  - reflexivity.
  - vm_compute. reflexivity.
  - vm_compute. reflexivity.
Defined.

(** A click on [btn-reset] while the second block is being mined: the block
    is appended to the new chain, whose genesis block it does not follow,
    and [isChainValid()] returns [false] although the block meets the
    difficulty, which has not changed. *)
Example reset_while_mining_breaks_the_link :
  match pageRun [ClickMine 1700000001000 "alice" (JInt 1);
                 MiningEnds 14;
                 ClickMine 1700000002000 "bob" (JInt 1);
                 ClickReset 1700000002500;
                 MiningEnds 6] firstPage with
  | Some last =>
      chain (this (world last)) = [genesisBlock 1700000002500; secondBlock] /\
      JsString.startsWith (target (this (world last))) (hash secondBlock) = true /\
      isChainValid (world last) = Returned false (world last)
  | None => False
  end.
Proof. vm_compute. repeat split. Qed.
